(** * MPC.cpp: the optimisation core of the model-predictive controller

    A shallow embedding of [src/ros/src/mpc/src/MPC.cpp] and the properties
    of its curve fitter, cost and constraint formulator, variable layout and
    solver driver.

    Conventions of the embedding.
    - [double] and [AD<double>] values are real numbers ([R]): the
      statements are about exact arithmetic.
    - [size_t] values are integers in [[0, 2^64)]; every [size_t] operation
      of the source is written with its wrap-around ([SizeT.add] and the
      like).
    - A vector ([Eigen::VectorXd], [CPPAD_TESTVECTOR], [std::vector]) is a
      [list R].  An access outside the vector has no defined behaviour in
      the source; here it makes the enclosing function fail ([None]).
    - A failing [assert] makes the enclosing function fail ([None]). *)

From Stdlib Require Import ZArith Reals Lra Lia String.
From stdpp Require Import base option list.

Local Open Scope Z_scope.

(** ** [size_t] arithmetic *)

Module SizeT.

Definition bits : Z := 64.
Definition modulus : Z := 2 ^ bits.
Definition max : Z := modulus - 1.

Definition wrap (z : Z) : Z := z mod modulus.

Definition add (a b : Z) : Z := wrap (a + b).
Definition sub (a b : Z) : Z := wrap (a - b).
Definition mul (a b : Z) : Z := wrap (a * b).

Definition in_range (z : Z) : Prop := 0 <= z <= max.

End SizeT.

Infix "+w" := SizeT.add (at level 50, left associativity).
Infix "-w" := SizeT.sub (at level 50, left associativity).
Infix "*w" := SizeT.mul (at level 40, left associativity).

(** ** Vectors *)

(** [v[i]] as an rvalue. *)
Definition vec_get (v : list R) (i : Z) : option R :=
  if decide (0 <= i) then v !! Z.to_nat i else None.

(** [v[i] = x]. *)
Definition vec_set (v : list R) (i : Z) (x : R) : option (list R) :=
  if decide (0 <= i < Z.of_nat (length v))
  then Some (<[Z.to_nat i := x]> v)
  else None.

(** ** Counted loops

    [for_range lo hi body s] is [for (size_t t = lo; t < hi; t++) body],
    threading the state [s]; the counter never wraps because it stays below
    [hi]. *)

Fixpoint for_loop {St : Type} (n : nat) (t : Z)
    (body : Z -> St -> option St) (s : St) : option St :=
  match n with
  | O => Some s
  | S n' => s' ← body t s; for_loop n' (t + 1) body s'
  end.

Definition for_range {St : Type} (lo hi : Z)
    (body : Z -> St -> option St) (s : St) : option St :=
  for_loop (Z.to_nat (hi - lo)) lo body s.

(** ** Curve fitter: evaluation *)

Section Polynomial.

Local Open Scope R_scope.

(** The loop of [polyeval]: [i] is the loop counter, [result] the
    accumulator, and the list holds [coeffs[i], coeffs[i+1], ...]. *)
Fixpoint polyeval_loop (cs : list R) (i : nat) (x result : R) : R :=
  match cs with
  | [] => result
  | c :: cs' => polyeval_loop cs' (S i) x (result + c * x ^ i)
  end.

Definition polyeval (coeffs : list R) (x : R) : R :=
  polyeval_loop coeffs 0 x 0.

(** The loop of [polyeval_diff], entered at [i = 1]. *)
Fixpoint polyeval_diff_loop (cs : list R) (i : nat) (x result : R) : R :=
  match cs with
  | [] => result
  | c :: cs' =>
      polyeval_diff_loop cs' (S i) x (result + INR i * c * x ^ (i - 1))
  end.

Definition polyeval_diff (coeffs : list R) (x : R) : R :=
  polyeval_diff_loop (tail coeffs) 1 x 0.

End Polynomial.

(** ** Curve fitter: least-squares fit *)

Section Polyfit.

Local Open Scope R_scope.

(** A matrix is the list of its rows. *)
Definition mat_get (A : list (list R)) (j i : Z) : option R :=
  row ← (if decide (0 <= j)%Z then A !! Z.to_nat j else None);
  vec_get row i.

Definition mat_set (A : list (list R)) (j i : Z) (x : R)
    : option (list (list R)) :=
  row ← (if decide (0 <= j)%Z then A !! Z.to_nat j else None);
  row' ← vec_set row i x;
  Some (<[Z.to_nat j := row']> A).

(** [A.householderQr().solve(y)] of Eigen, outside this repository. *)
Variable householderQr_solve : list (list R) -> list R -> list R.

(** Content of a freshly allocated matrix or vector entry. *)
Variable uninit : R.

(** The two loops that fill the design matrix. *)
Definition polyfit_matrix (xvals : list R) (order : Z)
    : option (list (list R)) :=
  let size := Z.of_nat (length xvals) in
  let A := repeat (repeat uninit (Z.to_nat (order + 1))) (length xvals) in
  A ← for_range 0 size (fun i A => mat_set A i 0 1) A;
  for_range 0 size (fun j A =>
    for_range 0 order (fun i A =>
      a ← mat_get A j i;
      xj ← vec_get xvals j;
      mat_set A j (i + 1) (a * xj)) A) A.

Definition polyfit (xvals yvals : list R) (order : Z) : option (list R) :=
  if decide (length xvals = length yvals) then
    if decide (1 <= order /\ order <= Z.of_nat (length xvals) - 1)%Z then
      A ← polyfit_matrix xvals order;
      Some (householderQr_solve A yvals)
    else None
  else None.

End Polyfit.

(** ** Constants of the vehicle model *)

Definition Lf : R := 0.325%R.

(** Delta constraint (on the steering angle), in degrees. *)
Definition delta_constraint : R := 25%R.

(** ** Configuration and variable layout *)

(** Modelled from the spec: [struct Params] of the absent [MPC.h]; the
    fields are those [MPC.cpp] reads, the horizon being a [size_t]. *)
Record Params := {
  steps_ahead : Z;
  dt : R;
  cte_coeff : R;
  epsi_coeff : R;
  speed_coeff : R;
  steer_coeff : R;
  consec_steer_coeff : R;
  consec_speed_coeff : R;
  ref_v : R
}.

(** Modelled from the spec: [struct Indexes] of the absent [MPC.h], seven
    [size_t] offsets into the flat decision-variable array. *)
Record Indexes := {
  x_start : Z;
  y_start : Z;
  psi_start : Z;
  cte_start : Z;
  epsi_start : Z;
  delta_start : Z;
  v_start : Z
}.

(** [fg[i] += x]. *)
Definition vec_add_to (v : list R) (i : Z) (x : R) : option (list R) :=
  old ← vec_get v i; vec_set v i (old + x)%R.

(** ** Cost and constraint formulator *)

Module FG_eval.

Record t := {
  m_coeffs : list R;
  m_ref_v : R;
  m_params : Params;
  m_indexes : Indexes
}.

(** The constructor. *)
Definition new (coeffs : list R) (params : Params) (indexes : Indexes)
    (ref_v : R) : t :=
  {| m_coeffs := coeffs; m_ref_v := ref_v;
     m_params := params; m_indexes := indexes |}.

Section Call.

Local Open Scope R_scope.

Variable self : t.

Let p := m_params self.
Let ix := m_indexes self.
Let N := steps_ahead p.

(** The part of the cost based on the reference state. *)
Definition cost_reference (vars : list R) (t : Z) (fg : list R)
    : option (list R) :=
  cte ← vec_get vars (cte_start ix +w t);
  fg ← vec_add_to fg 0 (cte_coeff p * cte ^ 2);
  epsi ← vec_get vars (epsi_start ix +w t);
  vec_add_to fg 0 (epsi_coeff p * epsi ^ 2).

(** Minimize the use of actuators. *)
Definition cost_actuators (vars : list R) (t : Z) (fg : list R)
    : option (list R) :=
  v ← vec_get vars (v_start ix +w t);
  fg ← vec_add_to fg 0 (speed_coeff p * (v - m_ref_v self) ^ 2);
  delta ← vec_get vars (delta_start ix +w t);
  vec_add_to fg 0 (steer_coeff p * delta ^ 2).

(** Minimize the value gap between sequential actuations. *)
Definition cost_gaps (vars : list R) (t : Z) (fg : list R)
    : option (list R) :=
  d1 ← vec_get vars (delta_start ix +w t +w 1);
  d0 ← vec_get vars (delta_start ix +w t);
  fg ← vec_add_to fg 0 (consec_steer_coeff p * (d1 - d0) ^ 2);
  v1 ← vec_get vars (v_start ix +w t +w 1);
  v0 ← vec_get vars (v_start ix +w t);
  vec_add_to fg 0 (consec_speed_coeff p * (v1 - v0) ^ 2).

(** Initial constraints. *)
Definition initial_constraints (vars : list R) (fg : list R)
    : option (list R) :=
  x ← vec_get vars (x_start ix);
  fg ← vec_set fg (1 +w x_start ix) x;
  y ← vec_get vars (y_start ix);
  fg ← vec_set fg (1 +w y_start ix) y;
  psi ← vec_get vars (psi_start ix);
  fg ← vec_set fg (1 +w psi_start ix) psi;
  cte ← vec_get vars (cte_start ix);
  fg ← vec_set fg (1 +w cte_start ix) cte;
  epsi ← vec_get vars (epsi_start ix);
  vec_set fg (1 +w epsi_start ix) epsi.

(** The rest of the constraints: one step of the vehicle model. *)
Definition model_constraints (vars : list R) (t : Z) (fg : list R)
    : option (list R) :=
  x1 ← vec_get vars (x_start ix +w t);
  y1 ← vec_get vars (y_start ix +w t);
  psi1 ← vec_get vars (psi_start ix +w t);
  cte1 ← vec_get vars (cte_start ix +w t);
  epsi1 ← vec_get vars (epsi_start ix +w t);
  x0 ← vec_get vars (x_start ix +w t -w 1);
  y0 ← vec_get vars (y_start ix +w t -w 1);
  psi0 ← vec_get vars (psi_start ix +w t -w 1);
  v0 ← vec_get vars (v_start ix +w t -w 1);
  cte0 ← vec_get vars (cte_start ix +w t -w 1);
  epsi0 ← vec_get vars (epsi_start ix +w t -w 1);
  delta0 ← vec_get vars (delta_start ix +w t -w 1);
  let f0 := polyeval_loop (m_coeffs self) 0 x0 0 in
  let fdiff0 := polyeval_diff_loop (tail (m_coeffs self)) 1 x0 0 in
  let psides0 := atan fdiff0 in
  fg ← vec_set fg (1 +w x_start ix +w t)
         (x1 - (x0 + v0 * cos psi0 * dt p));
  fg ← vec_set fg (1 +w y_start ix +w t)
         (y1 - (y0 + v0 * sin psi0 * dt p));
  fg ← vec_set fg (1 +w psi_start ix +w t)
         (psi1 - (psi0 - v0 * delta0 / Lf * dt p));
  fg ← vec_set fg (1 +w cte_start ix +w t)
         (cte1 - (f0 - y0 + (v0 * sin epsi0 * dt p)));
  vec_set fg (1 +w epsi_start ix +w t)
         (epsi1 - (psi0 - psides0 - v0 * delta0 / Lf * dt p)).

(** [operator()(fg, vars)]; the result is the final content of [fg]. *)
Definition call (fg vars : list R) : option (list R) :=
  fg ← vec_set fg 0 0;
  fg ← for_range 0 N (cost_reference vars) fg;
  fg ← for_range 0 (N -w 1) (cost_actuators vars) fg;
  fg ← for_range 0 (N -w 2) (cost_gaps vars) fg;
  fg ← initial_constraints vars fg;
  for_range 1 N (model_constraints vars) fg.

End Call.

End FG_eval.

(** ** The external solver's result

    [CppAD::ipopt::solve_result<Dvector>], outside this repository: the
    status and the fields [MPC::Solve] reads. *)

Inductive status_type :=
  | not_defined
  | success
  | maxiter_exceeded
  | stop_at_tiny_step
  | stop_at_acceptable_point
  | local_infeasibility
  | user_requested_stop
  | feasible_point_found
  | diverging_iterates
  | restoration_failure
  | error_in_step_computation
  | invalid_number_detected
  | too_few_degrees_of_freedom
  | internal_error
  | unknown.

#[global] Instance status_type_eq_dec : EqDecision status_type.
Proof. solve_decision. Defined.

Record solve_result := {
  status : status_type;
  x : list R;
  obj_value : R
}.

(** What [MPC::Solve] hands to [CppAD::ipopt::solve], in argument order
    (the evaluator [fg_eval] and the output [solution] apart). *)
Record solve_args := {
  options : string;
  xi : list R;
  xl : list R;
  xu : list R;
  gl : list R;
  gu : list R
}.

(** ** Solver driver *)

Module MPC.

Record t := {
  m_params : Params;
  m_indexes : Indexes
}.

(** What a call of [Solve] leaves behind: the line it logs with
    [ROS_WARN] (cost and [ok]) and the vector it returns. *)
Record outcome := {
  ros_warn : R * bool;
  returned : list R
}.

(** The offsets the constructor computes from the horizon. *)
Definition layout (N : Z) : Indexes :=
  let x_start := 0%Z in
  let y_start := x_start +w N in
  let psi_start := y_start +w N in
  let cte_start := psi_start +w N in
  let epsi_start := cte_start +w N in
  let delta_start := epsi_start +w N in
  let v_start := delta_start +w N -w 1 in
  {| x_start := x_start; y_start := y_start; psi_start := psi_start;
     cte_start := cte_start; epsi_start := epsi_start;
     delta_start := delta_start; v_start := v_start |}.

Definition newline : string := String (Ascii.ascii_of_nat 10) EmptyString.

Definition solver_options : string :=
  ("Integer print_level  2" ++ newline ++
   "Sparse  true        forward" ++ newline ++
   "Sparse  true        reverse" ++ newline ++
   "Numeric max_cpu_time          0.5" ++ newline)%string.

Section Driver.

Local Open Scope R_scope.

(** The macro [SPEED_UPPERBOUND] of the absent [MPC.h]. *)
Variable SPEED_UPPERBOUND : R.

(** [CppAD::ipopt::solve], given the assembled arguments and the
    evaluator. *)
Variable ipopt_solve :
  solve_args -> (list R -> list R -> option (list R)) -> solve_result.

(** Content of a freshly allocated [Dvector] entry. *)
Variable uninit : R.

Definition Dvector (n : Z) : list R := repeat uninit (Z.to_nat n).

(** [MPC::MPC(params)]. *)
Definition new (params : Params) : option t :=
  let indexes := layout (steps_ahead params) in
  if Rlt_dec (ref_v params) SPEED_UPPERBOUND
  then Some {| m_params := params; m_indexes := indexes |}
  else None.

Variable self : t.

Let p := m_params self.
Let ix := m_indexes self.
Let N := steps_ahead p.

Definition n_vars : Z := (N *w 5) +w ((N -w 1) *w 2).
Definition n_constraints : Z := N *w 5.

(** Initial value of the independent variables. *)
Definition initial_vars : option (list R) :=
  for_range 0 n_vars (fun i vars => vec_set vars i 0) (Dvector n_vars).

(** Lower and upper limits of the variables: the state trajectories,
    then the constraints on the actuators. *)
Definition variable_bounds : option (list R * list R) :=
  let vars_lowerbound := Dvector n_vars in
  let vars_upperbound := Dvector n_vars in
  '(vars_lowerbound, vars_upperbound) ←
    for_range 0 (delta_start ix) (fun i '(lo, up) =>
      lo ← vec_set lo i (- 1.0e19);
      up ← vec_set up i 1.0e19;
      Some (lo, up)) (vars_lowerbound, vars_upperbound);
  '(vars_lowerbound, vars_upperbound) ←
    for_range (delta_start ix) (v_start ix) (fun i '(lo, up) =>
      lo ← vec_set lo i (- 0.017453 * delta_constraint);
      up ← vec_set up i (0.017453 * delta_constraint);
      Some (lo, up)) (vars_lowerbound, vars_upperbound);
  for_range (v_start ix) n_vars (fun i '(lo, up) =>
      lo ← vec_set lo i 0.0;
      up ← vec_set up i SPEED_UPPERBOUND;
      Some (lo, up)) (vars_lowerbound, vars_upperbound).

(** Lower and upper limits for the constraints. *)
Definition constraint_bounds (x y psi cte epsi : R)
    : option (list R * list R) :=
  let constraints_lowerbound := Dvector n_constraints in
  let constraints_upperbound := Dvector n_constraints in
  '(constraints_lowerbound, constraints_upperbound) ←
    for_range 0 n_constraints (fun i '(lo, up) =>
      lo ← vec_set lo i 0;
      up ← vec_set up i 0;
      Some (lo, up)) (constraints_lowerbound, constraints_upperbound);
  constraints_lowerbound ← vec_set constraints_lowerbound (x_start ix) x;
  constraints_lowerbound ← vec_set constraints_lowerbound (y_start ix) y;
  constraints_lowerbound ←
    vec_set constraints_lowerbound (psi_start ix) psi;
  constraints_lowerbound ←
    vec_set constraints_lowerbound (cte_start ix) cte;
  constraints_lowerbound ←
    vec_set constraints_lowerbound (epsi_start ix) epsi;
  constraints_upperbound ← vec_set constraints_upperbound (x_start ix) x;
  constraints_upperbound ← vec_set constraints_upperbound (y_start ix) y;
  constraints_upperbound ←
    vec_set constraints_upperbound (psi_start ix) psi;
  constraints_upperbound ←
    vec_set constraints_upperbound (cte_start ix) cte;
  constraints_upperbound ←
    vec_set constraints_upperbound (epsi_start ix) epsi;
  Some (constraints_lowerbound, constraints_upperbound).

(** [Solve] up to the call of the solver: the arguments it builds. *)
Definition Solve_setup (state : list R) : option solve_args :=
  x ← vec_get state 0;
  y ← vec_get state 1;
  psi ← vec_get state 2;
  cte ← vec_get state 3;
  epsi ← vec_get state 4;
  vars ← initial_vars;
  '(vars_lowerbound, vars_upperbound) ← variable_bounds;
  '(constraints_lowerbound, constraints_upperbound) ←
    constraint_bounds x y psi cte epsi;
  Some {| options := solver_options; xi := vars;
          xl := vars_lowerbound; xu := vars_upperbound;
          gl := constraints_lowerbound; gu := constraints_upperbound |}.

(** [Solve] after the solver returned: the vector it builds. *)
Definition Solve_extract (solution : solve_result) : option (list R) :=
  let result : list R := [] in
  d ← vec_get (x solution) (delta_start ix);
  let result := result ++ [d] in
  v ← vec_get (x solution) (v_start ix);
  let result := result ++ [v] in
  for_range 0 N (fun i result =>
    xi ← vec_get (x solution) (x_start ix +w i);
    let result := result ++ [xi] in
    yi ← vec_get (x solution) (y_start ix +w i);
    Some (result ++ [yi])) result.

(** [MPC::Solve(state, coeffs, new_ref_v)]. *)
Definition Solve (state coeffs : list R) (new_ref_v : R)
    : option outcome :=
  let ok := true in
  args ← Solve_setup state;
  let fg_eval := FG_eval.new coeffs p ix new_ref_v in
  let solution := ipopt_solve args (FG_eval.call fg_eval) in
  let ok := ok && bool_decide (status solution = success) in
  let cost := obj_value solution in
  result ← Solve_extract solution;
  Some {| ros_warn := (cost, ok); returned := result |}.

End Driver.

End MPC.

(** ** Vocabulary of the specification *)

(** [v[i]] in a statement, where [i] is known to be in range. *)
Definition vec_at (v : list R) (i : Z) : R := default 0%R (v !! Z.to_nat i).

(** [Rsum f lo n] is [f lo + f (lo+1) + ... + f (lo+n-1)]. *)
Fixpoint Rsum (f : nat -> R) (lo n : nat) : R :=
  match n with
  | O => 0%R
  | S n' => (f lo + Rsum f (S lo) n')%R
  end.

(** The sum of [f t] over the integers [0 <= t < n]. *)
Definition Zsum (f : Z -> R) (n : Z) : R :=
  Rsum (fun t => f (Z.of_nat t)) 0 (Z.to_nat n).

(** The polynomial [sum_i coeffs[i] * x^i] and its formal derivative
    [sum_(i >= 1) i * coeffs[i] * x^(i-1)]. *)
Definition poly (coeffs : list R) (x : R) : R :=
  Rsum (fun i => nth i coeffs 0 * x ^ i)%R 0 (length coeffs).

Definition poly_deriv (coeffs : list R) (x : R) : R :=
  Rsum (fun i => INR i * nth i coeffs 0 * x ^ (i - 1))%R 1 (length coeffs - 1).

(** [A(j, i)] in a statement. *)
Definition mat_at (A : list (list R)) (j i : Z) : R :=
  vec_at (default [] (A !! Z.to_nat j)) i.

(** A matrix of [n] rows and [c] columns. *)
Definition shape (A : list (list R)) (n c : Z) : Prop :=
  Z.of_nat (length A) = n /\ Forall (fun row => Z.of_nat (length row) = c) A.

(** The design matrix of a fit of degree [order]: row [j] holds the powers
    [x_j^0, ..., x_j^order], so column [i] is [x^i]. *)
Definition vandermonde (xs : list R) (order : Z) : list (list R) :=
  map (fun x => map (fun i => x ^ i)%R (seq 0 (Z.to_nat (order + 1)))) xs.

Definition dot (r c : list R) : R :=
  fold_right Rplus 0%R (zip_with Rmult r c).

(** The sum of the squared residuals of the linear system [A c = ys]. *)
Definition design_error (A : list (list R)) (ys c : list R) : R :=
  fold_right Rplus 0%R (zip_with (fun row y => (dot row c - y) ^ 2)%R A ys).

(** The sum of the squared residuals of the polynomial with coefficients
    [c] at the points [(xs, ys)]. *)
Definition fit_error (xs ys c : list R) : R :=
  fold_right Rplus 0%R (zip_with (fun x y => (poly c x - y) ^ 2)%R xs ys).

(** What Eigen promises of [A.householderQr().solve(ys)]: no vector of the
    same length has a smaller error. *)
Definition least_squares_solution (A : list (list R)) (ys c : list R) : Prop :=
  forall c' : list R, length c' = length c ->
    (design_error A ys c <= design_error A ys c')%R.

(** A range of offsets [[start, start + len)]. *)
Definition in_span (r : Z * Z) (i : Z) : Prop := r.1 <= i < r.1 + r.2.

(** The seven trajectories of the layout with their lengths. *)
Definition spans (ix : Indexes) (N : Z) : list (Z * Z) :=
  [ (x_start ix, N); (y_start ix, N); (psi_start ix, N); (cte_start ix, N);
    (epsi_start ix, N); (delta_start ix, N - 1); (v_start ix, N - 1) ].

(** The largest steering angle, in radians. *)
Definition max_steering_angle : R := (0.017453 * delta_constraint)%R.

(** The predicted pairs [(x_t, y_t)], [0 <= t < n], of an iterate [xs], laid
    out flat: [x_0; y_0; x_1; y_1; ...]. *)
Definition predicted_pairs (ix : Indexes) (xs : list R) (n : Z) : list R :=
  flat_map
    (fun t => [ vec_at xs (x_start ix +w Z.of_nat t);
                vec_at xs (y_start ix +w Z.of_nat t) ])
    (seq 0 (Z.to_nat n)).

(** The solver's arguments and its answer during a call of [Solve]. *)
Definition solver_answer
    (ipopt_solve : solve_args -> (list R -> list R -> option (list R))
                   -> solve_result)
    (m : MPC.t) (args : solve_args) (coeffs : list R) (new_ref_v : R)
    : solve_result :=
  ipopt_solve args
    (FG_eval.call
       (FG_eval.new coeffs (MPC.m_params m) (MPC.m_indexes m) new_ref_v)).

(** The trajectories inside a decision-variable array [vars]: [x_t] is
    [traj_x ix vars t], and so on. *)
Section Trajectories.

Variable ix : Indexes.
Variable vars : list R.

Definition traj_x (t : Z) : R := vec_at vars (x_start ix + t).
Definition traj_y (t : Z) : R := vec_at vars (y_start ix + t).
Definition traj_psi (t : Z) : R := vec_at vars (psi_start ix + t).
Definition traj_cte (t : Z) : R := vec_at vars (cte_start ix + t).
Definition traj_epsi (t : Z) : R := vec_at vars (epsi_start ix + t).
Definition traj_delta (t : Z) : R := vec_at vars (delta_start ix + t).
Definition traj_v (t : Z) : R := vec_at vars (v_start ix + t).

End Trajectories.

(** Two answers of the solver with the same iterate: one converged, one
    stopped early. *)
Definition answer_converged : solve_result :=
  {| status := success; x := repeat 0%R 19; obj_value := 4%R |}.

Definition answer_stopped : solve_result :=
  {| status := maxiter_exceeded; x := repeat 0%R 19; obj_value := 4%R |}.

(** What the specification asks of the formulator [self] on the
    decision-variable array [vars]. *)
Section FormulatorSpec.

Local Open Scope R_scope.

Variable self : FG_eval.t.
Variable vars : list R.

Let p := FG_eval.m_params self.
Let ix := FG_eval.m_indexes self.
Let N := steps_ahead p.
Let f := poly (FG_eval.m_coeffs self).
Let f' := poly_deriv (FG_eval.m_coeffs self).

(** The three sums of the cost, with their index ranges. *)
Definition cost : R :=
  Zsum (fun t => cte_coeff p * traj_cte ix vars t ^ 2
                 + epsi_coeff p * traj_epsi ix vars t ^ 2) N
  + Zsum (fun t => speed_coeff p
                     * (traj_v ix vars t - FG_eval.m_ref_v self) ^ 2
                   + steer_coeff p * traj_delta ix vars t ^ 2) (N - 1)
  + Zsum (fun t => consec_steer_coeff p
                     * (traj_delta ix vars (t + 1) - traj_delta ix vars t) ^ 2
                   + consec_speed_coeff p
                     * (traj_v ix vars (t + 1) - traj_v ix vars t) ^ 2) (N - 2).

(** The five residuals of step [t] in [fg]: next state minus the state
    the vehicle model predicts from step [t - 1]. *)
Definition dynamics_residuals (fg : list R) (t : Z) : Prop :=
  vec_at fg (1 + x_start ix + t)
    = traj_x ix vars t
      - (traj_x ix vars (t - 1)
         + traj_v ix vars (t - 1) * cos (traj_psi ix vars (t - 1)) * dt p)
  /\ vec_at fg (1 + y_start ix + t)
    = traj_y ix vars t
      - (traj_y ix vars (t - 1)
         + traj_v ix vars (t - 1) * sin (traj_psi ix vars (t - 1)) * dt p)
  /\ vec_at fg (1 + psi_start ix + t)
    = traj_psi ix vars t
      - (traj_psi ix vars (t - 1)
         - traj_v ix vars (t - 1) * traj_delta ix vars (t - 1) / Lf * dt p)
  /\ vec_at fg (1 + cte_start ix + t)
    = traj_cte ix vars t
      - (f (traj_x ix vars (t - 1)) - traj_y ix vars (t - 1)
         + traj_v ix vars (t - 1) * sin (traj_epsi ix vars (t - 1)) * dt p)
  /\ vec_at fg (1 + epsi_start ix + t)
    = traj_epsi ix vars t
      - (traj_psi ix vars (t - 1) - atan (f' (traj_x ix vars (t - 1)))
         - traj_v ix vars (t - 1) * traj_delta ix vars (t - 1) / Lf * dt p).

(** The five initial-state residuals in [fg]: the first entry of each
    state trajectory. *)
Definition initial_residuals (fg : list R) : Prop :=
  vec_at fg (1 + x_start ix) = traj_x ix vars 0
  /\ vec_at fg (1 + y_start ix) = traj_y ix vars 0
  /\ vec_at fg (1 + psi_start ix) = traj_psi ix vars 0
  /\ vec_at fg (1 + cte_start ix) = traj_cte ix vars 0
  /\ vec_at fg (1 + epsi_start ix) = traj_epsi ix vars 0.

End FormulatorSpec.

(** An iterate [xs] satisfies the constraints handed to the solver: the
    evaluator, called on an array of one entry for the cost and one per
    constraint, yields residuals within the bounds [gl] and [gu]. *)
Definition satisfies_constraints
    (fg_eval : list R -> list R -> option (list R))
    (args : solve_args) (xs : list R) : Prop :=
  exists g,
    fg_eval (repeat 0%R (S (length (gl args)))) xs = Some g
    /\ forall j, 0 <= j < Z.of_nat (length (gl args)) ->
         (vec_at (gl args) j <= vec_at g (1 + j) <= vec_at (gu args) j)%R.

(** ** Concrete configurations

    Small instances on which the statements below are exercised. *)

(** A horizon of three steps with the weights of
    [run_mpc_cpp_with_debug.sh]. *)
Definition small_params : Params :=
  {| steps_ahead := 3; dt := 0.05;
     cte_coeff := 100; epsi_coeff := 100;
     speed_coeff := 2; steer_coeff := 2;
     consec_steer_coeff := 1000; consec_speed_coeff := 5;
     ref_v := 1 |}%R.

(** The same configuration with the degenerate horizon [N = 1]. *)
Definition degenerate_params : Params :=
  {| steps_ahead := 1; dt := 0.05;
     cte_coeff := 100; epsi_coeff := 100;
     speed_coeff := 2; steer_coeff := 2;
     consec_steer_coeff := 1000; consec_speed_coeff := 5;
     ref_v := 1 |}%R.

Definition small_mpc : MPC.t :=
  {| MPC.m_params := small_params; MPC.m_indexes := MPC.layout 3 |}.

(** ** Properties of [size_t] arithmetic, vectors and loops *)

Lemma wrap_small z : SizeT.in_range z -> SizeT.wrap z = z.
Proof.
  unfold SizeT.in_range, SizeT.max, SizeT.wrap. intros H.
  apply Z.mod_small. lia.
Qed.

Lemma modulus_value : SizeT.modulus = 18446744073709551616.
Proof. reflexivity. Qed.

Lemma max_value : SizeT.max = 18446744073709551615.
Proof. reflexivity. Qed.

(** Removes the wrap-around of every [size_t] operation whose exact result
    is in range. *)
Ltac unwrap :=
  unfold SizeT.add, SizeT.sub, SizeT.mul in *;
  repeat match goal with
    | |- context [SizeT.wrap ?z] =>
        rewrite (wrap_small z)
          by (unfold SizeT.in_range; rewrite max_value; lia)
    | H : context [SizeT.wrap ?z] |- _ =>
        rewrite (wrap_small z) in H
          by (unfold SizeT.in_range; rewrite max_value; lia)
    end.

Lemma vec_get_Some (v : list R) i :
  0 <= i < Z.of_nat (length v) -> vec_get v i = Some (vec_at v i).
Proof.
  intros H. unfold vec_get, vec_at.
  destruct (decide (0 <= i)) as [_|]; [|lia].
  destruct (lookup_lt_is_Some_2 v (Z.to_nat i)) as [a Ha]; [lia|].
  rewrite Ha. reflexivity.
Qed.

Lemma vec_get_inv (v : list R) i a :
  vec_get v i = Some a -> 0 <= i < Z.of_nat (length v) /\ a = vec_at v i.
Proof.
  unfold vec_get, vec_at. destruct (decide (0 <= i)); [|discriminate].
  intros H. pose proof (lookup_lt_Some _ _ _ H). rewrite H. split; [lia|done].
Qed.

Lemma vec_set_Some (v : list R) i a :
  0 <= i < Z.of_nat (length v) ->
  vec_set v i a = Some (<[Z.to_nat i := a]> v).
Proof. intros H. unfold vec_set. destruct (decide _); [done|lia]. Qed.

Lemma vec_at_insert_eq (v : list R) i a :
  0 <= i < Z.of_nat (length v) -> vec_at (<[Z.to_nat i := a]> v) i = a.
Proof.
  intros H. unfold vec_at. rewrite list_lookup_insert_eq by lia. done.
Qed.

Lemma vec_at_insert_ne (v : list R) i j a :
  0 <= i -> 0 <= j -> i <> j -> vec_at (<[Z.to_nat i := a]> v) j = vec_at v j.
Proof.
  intros Hi Hj H. unfold vec_at. rewrite list_lookup_insert_ne by lia. done.
Qed.

(** The invariant rule of the counted loop: an invariant that holds on
    entry and that every iteration re-establishes holds on exit, and the
    loop does not fail. *)
Lemma for_loop_invariant {St : Type} (I : Z -> St -> Prop) body n t (s : St) :
  I t s ->
  (forall i s, t <= i < t + Z.of_nat n -> I i s ->
     exists s', body i s = Some s' /\ I (i + 1) s') ->
  exists s', for_loop n t body s = Some s' /\ I (t + Z.of_nat n) s'.
Proof.
  revert t s. induction n as [|n IH]; intros t s H0 Hstep.
  - exists s. rewrite Z.add_0_r. done.
  - destruct (Hstep t s) as (s1 & Hb & H1); [lia|done|].
    destruct (IH (t + 1) s1) as (s2 & Hl & H2); [done| |].
    + intros i s' Hi. apply Hstep. lia.
    + exists s2. simpl. rewrite Hb. simpl. split; [done|].
      replace (t + Z.of_nat (S n)) with (t + 1 + Z.of_nat n) by lia. done.
Qed.

Lemma for_range_invariant {St : Type} (I : Z -> St -> Prop) body lo hi (s : St) :
  lo <= hi ->
  I lo s ->
  (forall i s, lo <= i < hi -> I i s ->
     exists s', body i s = Some s' /\ I (i + 1) s') ->
  exists s', for_range lo hi body s = Some s' /\ I hi s'.
Proof.
  intros Hle H0 Hstep. unfold for_range.
  pose proof (for_loop_invariant I body (Z.to_nat (hi - lo)) lo s H0) as HL.
  destruct HL as (s' & Hrun & Hexit).
  - intros i s' Hi. apply Hstep. lia.
  - exists s'. split; [exact Hrun|].
    replace (lo + Z.of_nat (Z.to_nat (hi - lo))) with hi in Hexit by lia.
    exact Hexit.
Qed.

(** A loop whose bound is not above its start does nothing. *)
Lemma for_range_empty {St : Type} body lo hi (s : St) :
  hi <= lo -> for_range lo hi body s = Some s.
Proof.
  intros H. unfold for_range. replace (Z.to_nat (hi - lo)) with O by lia. done.
Qed.

(** ** Curve fitter: evaluation and derivative *)

Section PolynomialFacts.

Local Open Scope R_scope.

Lemma Rsum_ext f g lo n :
  (forall k, (lo <= k < lo + n)%nat -> f k = g k) ->
  Rsum f lo n = Rsum g lo n.
Proof.
  revert lo. induction n as [|n IH]; intros lo H; simpl; [done|].
  rewrite (H lo) by lia. f_equal. apply IH. intros k Hk. apply H. lia.
Qed.

(** The accumulator of the [polyeval] loop: what was there on entry plus
    the terms of the remaining coefficients. *)
Lemma polyeval_loop_sum cs i x acc :
  polyeval_loop cs i x acc
  = acc + Rsum (fun k => nth (k - i) cs 0 * x ^ k) i (length cs).
Proof.
  revert i acc. induction cs as [|c cs IH]; intros i acc; simpl.
  - lra.
  - rewrite IH. rewrite Nat.sub_diag. simpl.
    rewrite (Rsum_ext (fun k => nth (k - i) (c :: cs) 0 * x ^ k)
               (fun k => nth (k - S i) cs 0 * x ^ k)).
    + lra.
    + intros k Hk. replace (k - i)%nat with (S (k - S i)) by lia. done.
Qed.

Lemma polyeval_diff_loop_sum cs i x acc :
  polyeval_diff_loop cs i x acc
  = acc + Rsum (fun k => INR k * nth (k - i) cs 0 * x ^ (k - 1)) i (length cs).
Proof.
  revert i acc. induction cs as [|c cs IH]; intros i acc; simpl Rsum; simpl length.
  - simpl. lra.
  - cbn [polyeval_diff_loop]. rewrite IH. rewrite Nat.sub_diag. cbn [nth].
    rewrite (Rsum_ext (fun k => INR k * nth (k - i) (c :: cs) 0 * x ^ (k - 1))
               (fun k => INR k * nth (k - S i) cs 0 * x ^ (k - 1))).
    + lra.
    + intros k Hk. replace (k - i)%nat with (S (k - S i)) by lia. done.
Qed.

Lemma polyeval_poly coeffs x : polyeval coeffs x = poly coeffs x.
Proof.
  unfold polyeval, poly. rewrite polyeval_loop_sum, Rplus_0_l.
  apply Rsum_ext. intros k _. by rewrite Nat.sub_0_r.
Qed.

Lemma polyeval_diff_poly_deriv coeffs x :
  polyeval_diff coeffs x = poly_deriv coeffs x.
Proof.
  unfold polyeval_diff, poly_deriv.
  rewrite polyeval_diff_loop_sum, Rplus_0_l.
  destruct coeffs as [|c cs]; [done|]. cbn [tail length].
  replace (S (length cs) - 1)%nat with (length cs) by lia.
  apply Rsum_ext. intros k Hk.
  destruct k as [|k]; [lia|]. cbn [nth]. by rewrite Nat.sub_1_r.
Qed.

(** Term by term, the derivative of a finite sum of monomials. *)
Lemma Rsum_monomials_derivative (a : nat -> R) lo n x :
  derivable_pt_lim (fun y => Rsum (fun k => a k * y ^ k) lo n) x
    (Rsum (fun k => INR k * a k * x ^ (k - 1)) lo n).
Proof.
  revert lo. induction n as [|n IH]; intros lo; simpl.
  - apply derivable_pt_lim_const.
  - apply (derivable_pt_lim_plus (fun y => a lo * y ^ lo) _ x).
    + replace (INR lo * a lo * x ^ (lo - 1)) with (a lo * (INR lo * x ^ pred lo)).
      * apply (derivable_pt_lim_scal (fun y => y ^ lo) (a lo) x).
        apply derivable_pt_lim_pow.
      * rewrite Nat.sub_1_r. ring.
    + apply IH.
Qed.

Lemma poly_derivative coeffs x :
  derivable_pt_lim (poly coeffs) x (poly_deriv coeffs x).
Proof.
  unfold poly_deriv. destruct coeffs as [|c cs].
  - simpl. apply derivable_pt_lim_const.
  - pose proof (Rsum_monomials_derivative (fun k => nth k (c :: cs) 0) 0
                  (length (c :: cs)) x) as H.
    replace (Rsum (fun i => INR i * nth i (c :: cs) 0 * x ^ (i - 1)) 1
               (length (c :: cs) - 1))
      with (Rsum (fun k => INR k * nth k (c :: cs) 0 * x ^ (k - 1)) 0
              (length (c :: cs))); [exact H|].
    cbn [length Rsum]. replace (S (length cs) - 1)%nat with (length cs) by lia.
    change (INR 0) with 0. ring.
Qed.

End PolynomialFacts.

(** C10.  Over exact arithmetic, [polyeval coeffs x] is the sum of
    [coeffs[i] * x^i] over all [i], [polyeval_diff coeffs x] is the sum of
    [i * coeffs[i] * x^(i-1)] over [i >= 1], and [polyeval_diff coeffs] is the
    derivative of the polynomial function [polyeval coeffs] at every point. *)
Theorem polyeval_diff_is_derivative (coeffs : list R) (x : R) :
  polyeval coeffs x
    = Rsum (fun i => nth i coeffs 0 * x ^ i)%R 0 (length coeffs)
  /\ polyeval_diff coeffs x
    = Rsum (fun i => INR i * nth i coeffs 0 * x ^ (i - 1))%R 1 (length coeffs - 1)
  /\ derivable_pt_lim (polyeval coeffs) x (polyeval_diff coeffs x).
Proof.
  split; [apply polyeval_poly|]. split; [apply polyeval_diff_poly_deriv|].
  rewrite polyeval_diff_poly_deriv.
  intros eps Heps. destruct (poly_derivative coeffs x eps Heps) as [delta Hd].
  exists delta. intros h Hh Hlt. rewrite !polyeval_poly. by apply Hd.
Qed.

Example polyeval_quadratic : polyeval [1; 2; 3]%R 2 = 17%R.
Proof. unfold polyeval. simpl. lra. Qed.

Example polyeval_diff_quadratic : polyeval_diff [1; 2; 3]%R 2 = 14%R.
Proof. unfold polyeval_diff. simpl. lra. Qed.

Example polyeval_diff_constant : polyeval_diff [7]%R 2 = 0%R.
Proof. reflexivity. Qed.

(** ** Variable layout *)

Section Layout.

Variable SPEED_UPPERBOUND : R.

Lemma new_Some p m :
  MPC.new SPEED_UPPERBOUND p = Some m ->
  m = {| MPC.m_params := p; MPC.m_indexes := MPC.layout (steps_ahead p) |}
  /\ (ref_v p < SPEED_UPPERBOUND)%R.
Proof.
  unfold MPC.new. destruct (Rlt_dec _ _); [|discriminate].
  intros [= <-]. done.
Qed.

Lemma new_accepts p :
  (ref_v p < SPEED_UPPERBOUND)%R ->
  MPC.new SPEED_UPPERBOUND p
  = Some {| MPC.m_params := p; MPC.m_indexes := MPC.layout (steps_ahead p) |}.
Proof. intros H. unfold MPC.new. destruct (Rlt_dec _ _); [done|contradiction]. Qed.

(** Without wrap-around the offsets are the multiples of the horizon. *)
Lemma layout_exact N :
  1 <= N -> SizeT.in_range (5 * N + 2 * (N - 1)) ->
  MPC.layout N
  = {| x_start := 0; y_start := N; psi_start := 2 * N; cte_start := 3 * N;
       epsi_start := 4 * N; delta_start := 5 * N; v_start := 6 * N - 1 |}.
Proof.
  unfold SizeT.in_range. rewrite max_value. intros H1 H2.
  unfold MPC.layout. unwrap. f_equal; lia.
Qed.

Lemma n_vars_exact m :
  1 <= steps_ahead (MPC.m_params m) ->
  SizeT.in_range (5 * steps_ahead (MPC.m_params m)
                  + 2 * (steps_ahead (MPC.m_params m) - 1)) ->
  MPC.n_vars m = 5 * steps_ahead (MPC.m_params m)
                 + 2 * (steps_ahead (MPC.m_params m) - 1)
  /\ MPC.n_constraints m = 5 * steps_ahead (MPC.m_params m).
Proof.
  unfold SizeT.in_range. rewrite max_value. intros H1 H2.
  unfold MPC.n_vars, MPC.n_constraints. unwrap. lia.
Qed.

End Layout.

Example layout_three :
  MPC.layout 3
  = {| x_start := 0; y_start := 3; psi_start := 6; cte_start := 9;
       epsi_start := 12; delta_start := 15; v_start := 17 |}.
Proof. reflexivity. Qed.

Example sizes_three :
  MPC.n_vars small_mpc = 19 /\ MPC.n_constraints small_mpc = 15.
Proof. split; reflexivity. Qed.

(** Below two steps the subtraction [N - 2] of the third cost loop wraps. *)
Example gap_loop_bound_wraps : 1 -w 2 = 18446744073709551615.
Proof. reflexivity. Qed.

(** C5.  For every horizon [N >= 2] whose array length [5N + 2(N-1)] is a
    [size_t], the offsets computed by the constructor are [x_start = 0],
    [y_start = x_start + N], [psi_start = y_start + N],
    [cte_start = psi_start + N], [epsi_start = cte_start + N],
    [delta_start = epsi_start + N], [v_start = delta_start + (N-1)]; the seven
    ranges are pairwise disjoint, their union is [[0, 5N + 2(N-1))], that
    length is the [n_vars] of [Solve], and [n_constraints] is [5N]. *)
Theorem layout_partition (SPEED_UPPERBOUND : R) (p : Params) (m : MPC.t) :
  2 <= steps_ahead p ->
  SizeT.in_range (5 * steps_ahead p + 2 * (steps_ahead p - 1)) ->
  MPC.new SPEED_UPPERBOUND p = Some m ->
  (x_start (MPC.m_indexes m) = 0
   /\ y_start (MPC.m_indexes m) = x_start (MPC.m_indexes m) + steps_ahead p
   /\ psi_start (MPC.m_indexes m) = y_start (MPC.m_indexes m) + steps_ahead p
   /\ cte_start (MPC.m_indexes m) = psi_start (MPC.m_indexes m) + steps_ahead p
   /\ epsi_start (MPC.m_indexes m) = cte_start (MPC.m_indexes m) + steps_ahead p
   /\ delta_start (MPC.m_indexes m) = epsi_start (MPC.m_indexes m) + steps_ahead p
   /\ v_start (MPC.m_indexes m)
      = delta_start (MPC.m_indexes m) + (steps_ahead p - 1))
  /\ ForallOrdPairs
       (fun r1 r2 => forall i, ~ (in_span r1 i /\ in_span r2 i))
       (spans (MPC.m_indexes m) (steps_ahead p))
  /\ (forall i,
        Exists (fun r => in_span r i) (spans (MPC.m_indexes m) (steps_ahead p))
        <-> 0 <= i < 5 * steps_ahead p + 2 * (steps_ahead p - 1))
  /\ MPC.n_vars m = 5 * steps_ahead p + 2 * (steps_ahead p - 1)
  /\ MPC.n_constraints m = 5 * steps_ahead p.
Proof.
  intros HN Hfit Hnew. apply new_Some in Hnew as [-> _]. cbn [MPC.m_indexes].
  rewrite layout_exact by (done || lia).
  pose proof (n_vars_exact
    {| MPC.m_params := p; MPC.m_indexes := MPC.layout (steps_ahead p) |}) as Hn.
  cbn [MPC.m_params] in Hn. destruct Hn as [Hv Hc]; [lia|done|].
  cbn [x_start y_start psi_start cte_start epsi_start delta_start v_start].
  split; [lia|]. split; [|split; [|done]].
  - unfold spans, in_span.
    cbn [x_start y_start psi_start cte_start epsi_start delta_start v_start].
    repeat constructor; cbn [fst snd]; lia.
  - intros i. unfold spans, in_span.
    cbn [x_start y_start psi_start cte_start epsi_start delta_start v_start].
    rewrite !Exists_cons, Exists_nil. cbn [fst snd]. lia.
Qed.

Lemma layout_partition_witness :
  ForallOrdPairs
    (fun r1 r2 => forall i, ~ (in_span r1 i /\ in_span r2 i))
    (spans (MPC.m_indexes small_mpc) 3)
  /\ MPC.n_vars small_mpc = 19.
Proof.
  assert (H2 : 2 <= steps_ahead small_params) by (simpl; lia).
  assert (Hfit : SizeT.in_range (5 * steps_ahead small_params
                                 + 2 * (steps_ahead small_params - 1)))
    by (unfold SizeT.in_range; rewrite max_value; simpl; lia).
  assert (Hnew : MPC.new 2 small_params = Some small_mpc)
    by (apply (new_accepts 2 small_params); simpl; lra).
  destruct (layout_partition 2 small_params small_mpc H2 Hfit Hnew)
    as (_ & Hdisj & _ & Hvars & _).
  split; [exact Hdisj | exact Hvars].
Defined.

(** ** Solver driver: extraction of the result *)

Section Extraction.

Variable m : MPC.t.

Let N := steps_ahead (MPC.m_params m).
Let ix := MPC.m_indexes m.

Lemma flat_pairs_snoc (f g : nat -> R) n :
  flat_map (fun t => [f t; g t]) (seq 0 (S n))
  = flat_map (fun t => [f t; g t]) (seq 0 n) ++ [f n; g n].
Proof. rewrite seq_S, flat_map_app. simpl. done. Qed.

Lemma flat_pairs_length (f g : nat -> R) lo n :
  length (flat_map (fun t => [f t; g t]) (seq lo n)) = (2 * n)%nat.
Proof. revert lo. induction n as [|n IH]; intros lo; simpl; [done|]. rewrite IH. lia. Qed.

Lemma flat_pairs_lookup (f g : nat -> R) lo n k :
  (k < n)%nat ->
  flat_map (fun t => [f t; g t]) (seq lo n) !! (2 * k)%nat = Some (f (lo + k)%nat)
  /\ flat_map (fun t => [f t; g t]) (seq lo n) !! (2 * k + 1)%nat
     = Some (g (lo + k)%nat).
Proof.
  revert lo k. induction n as [|n IH]; intros lo k Hk; [lia|].
  destruct k as [|k]; simpl.
  - rewrite Nat.add_0_r. done.
  - replace (k + S (k + 0))%nat with (S (2 * k)) by lia. simpl.
    replace (k + S (k + 0) + 1)%nat with (S (2 * k + 1)) by lia. simpl.
    replace (lo + S k)%nat with (S lo + k)%nat by lia.
    apply IH. lia.
Qed.

(** The extraction loop appends, at iteration [i], the pair of step [i]. *)
Lemma extract_loop (xs : list R) (acc r : list R) n i0 :
  for_loop n (Z.of_nat i0) (fun i result =>
      xi ← vec_get xs (x_start ix +w i);
      let result := result ++ [xi] in
      yi ← vec_get xs (y_start ix +w i);
      Some (result ++ [yi])) acc = Some r ->
  r = acc ++ flat_map
               (fun t => [ vec_at xs (x_start ix +w Z.of_nat t);
                           vec_at xs (y_start ix +w Z.of_nat t) ])
               (seq i0 n).
Proof.
  revert acc i0. induction n as [|n IH]; intros acc i0; simpl.
  - intros [= <-]. by rewrite app_nil_r.
  - destruct (vec_get xs (x_start ix +w Z.of_nat i0)) as [a|] eqn:Ha;
      [|discriminate]. simpl.
    destruct (vec_get xs (y_start ix +w Z.of_nat i0)) as [b|] eqn:Hb;
      [|discriminate]. simpl.
    replace (Z.of_nat i0 + 1) with (Z.of_nat (S i0)) by lia.
    intros H. apply IH in H. subst r.
    apply vec_get_inv in Ha as [_ ->]. apply vec_get_inv in Hb as [_ ->].
    rewrite <- !app_assoc. done.
Qed.

Lemma Solve_extract_inv solution r :
  MPC.Solve_extract m solution = Some r ->
  r = vec_at (x solution) (delta_start ix)
      :: vec_at (x solution) (v_start ix)
      :: predicted_pairs ix (x solution) N.
Proof.
  unfold MPC.Solve_extract. fold ix. fold N.
  destruct (vec_get (x solution) (delta_start ix)) as [d|] eqn:Hd;
    [|discriminate]. simpl.
  destruct (vec_get (x solution) (v_start ix)) as [v|] eqn:Hv;
    [|discriminate]. simpl.
  unfold for_range. rewrite Z.sub_0_r. intros H.
  apply (extract_loop _ _ _ _ O) in H. subst r.
  apply vec_get_inv in Hd as [_ ->]. apply vec_get_inv in Hv as [_ ->].
  done.
Qed.

(** Extraction succeeds on an iterate that has every entry it reads. *)
Lemma Solve_extract_Some solution :
  2 <= N ->
  SizeT.in_range (5 * N + 2 * (N - 1)) ->
  ix = MPC.layout N ->
  Z.of_nat (length (x solution)) = 5 * N + 2 * (N - 1) ->
  MPC.Solve_extract m solution
  = Some (vec_at (x solution) (delta_start ix)
          :: vec_at (x solution) (v_start ix)
          :: predicted_pairs ix (x solution) N).
Proof.
  intros HN Hfit Hix Hlen.
  assert (exists r, MPC.Solve_extract m solution = Some r) as [r Hr].
  { unfold MPC.Solve_extract. fold ix. fold N.
    rewrite Hix, layout_exact by (done || lia).
    unfold SizeT.in_range in Hfit. rewrite max_value in Hfit.
    cbn [x_start y_start psi_start cte_start epsi_start delta_start v_start].
    rewrite !vec_get_Some by lia. simpl.
    destruct (for_range_invariant (fun _ _ => True)
      (fun i result =>
         xi ← vec_get (x solution) (0 +w i);
         let result := result ++ [xi] in
         yi ← vec_get (x solution) (N +w i);
         Some (result ++ [yi])) 0 N
      [vec_at (x solution) (5 * N); vec_at (x solution) (6 * N - 1)])
      as (r & Hr & _); [lia|done| |by exists r].
    intros i s Hi _. unwrap. rewrite !vec_get_Some by lia. simpl. eauto. }
  rewrite Hr. f_equal. by apply Solve_extract_inv.
Qed.

Lemma predicted_pairs_length xs :
  0 <= N -> Z.of_nat (length (predicted_pairs ix xs N)) = 2 * N.
Proof. intros H. unfold predicted_pairs. rewrite flat_pairs_length. lia. Qed.

Lemma predicted_pairs_lookup xs t :
  0 <= t < N ->
  predicted_pairs ix xs N !! Z.to_nat (2 * t) = Some (vec_at xs (x_start ix +w t))
  /\ predicted_pairs ix xs N !! Z.to_nat (2 * t + 1)
     = Some (vec_at xs (y_start ix +w t)).
Proof.
  intros Ht. unfold predicted_pairs.
  destruct (flat_pairs_lookup
    (fun t => vec_at xs (x_start ix +w Z.of_nat t))
    (fun t => vec_at xs (y_start ix +w Z.of_nat t)) 0 (Z.to_nat N) (Z.to_nat t))
    as [H1 H2]; [lia|].
  replace (Z.to_nat (2 * t)) with (2 * Z.to_nat t)%nat by lia.
  replace (Z.to_nat (2 * t + 1)) with (2 * Z.to_nat t + 1)%nat by lia.
  rewrite H1, H2. simpl. rewrite Z2Nat.id by lia. done.
Qed.

End Extraction.

(** ** Solver driver: the arguments handed to the solver *)

Section Setup.

Variable SPEED_UPPERBOUND : R.
Variable uninit : R.

(** A loop that stores [a] and [b] at every position of a range of two
    arrays: what it leaves in the range and outside. *)
Lemma fill_pair_loop (a b : R) (lo up : list R) start stop :
  0 <= start ->
  stop <= Z.of_nat (length lo) ->
  length up = length lo ->
  exists lo' up',
    for_range start stop (fun i '(lo, up) =>
        lo ← vec_set lo i a;
        up ← vec_set up i b;
        Some (lo, up)) (lo, up) = Some (lo', up')
    /\ length lo' = length lo /\ length up' = length lo
    /\ (forall j, start <= j < stop -> vec_at lo' j = a /\ vec_at up' j = b)
    /\ (forall j, 0 <= j -> ~ (start <= j < stop) ->
          vec_at lo' j = vec_at lo j /\ vec_at up' j = vec_at up j).
Proof.
  intros H0 Hstop Hlen.
  destruct (Z_le_gt_dec start stop) as [Hle|Hgt].
  - destruct (for_range_invariant
      (fun i (s : list R * list R) =>
         length s.1 = length lo /\ length s.2 = length lo
         /\ (forall j, start <= j < i -> vec_at s.1 j = a /\ vec_at s.2 j = b)
         /\ (forall j, 0 <= j -> ~ (start <= j < i) ->
               vec_at s.1 j = vec_at lo j /\ vec_at s.2 j = vec_at up j))
      (fun i '(lo, up) =>
         lo ← vec_set lo i a; up ← vec_set up i b; Some (lo, up))
      start stop (lo, up)) as ([lo' up'] & Hrun & Hinv); [done| |..].
    + cbn [fst snd]. repeat split; try done; lia.
    + intros i [l u] Hi (Hl & Hu & Hin & Hout). cbn [fst snd] in *.
      rewrite !vec_set_Some by lia. simpl.
      eexists. split; [reflexivity|]. cbn [fst snd].
      rewrite !length_insert. repeat split; try done.
      * destruct (decide (j = i)) as [->|Hne].
        -- apply vec_at_insert_eq. lia.
        -- rewrite vec_at_insert_ne by lia. apply Hin. lia.
      * destruct (decide (j = i)) as [->|Hne].
        -- apply vec_at_insert_eq. lia.
        -- rewrite vec_at_insert_ne by lia. apply Hin. lia.
      * rewrite vec_at_insert_ne by lia. apply Hout; lia.
      * rewrite vec_at_insert_ne by lia. apply Hout; lia.
    + exists lo', up'. cbn [fst snd] in Hinv. done.
  - exists lo, up. rewrite for_range_empty by lia.
    repeat split; try done; lia.
Qed.

Lemma Dvector_length n : 0 <= n -> Z.of_nat (length (MPC.Dvector uninit n)) = n.
Proof. intros H. unfold MPC.Dvector. rewrite repeat_length. lia. Qed.

Variable m : MPC.t.

Let N := steps_ahead (MPC.m_params m).
Let ix := MPC.m_indexes m.

Hypothesis horizon : 1 <= N.
Hypothesis fits : SizeT.in_range (5 * N + 2 * (N - 1)).
Hypothesis constructed : ix = MPC.layout N.

Lemma initial_vars_zero :
  exists vars,
    MPC.initial_vars uninit m = Some vars
    /\ Z.of_nat (length vars) = 5 * N + 2 * (N - 1)
    /\ forall j, 0 <= j < 5 * N + 2 * (N - 1) -> vec_at vars j = 0%R.
Proof.
  destruct (n_vars_exact m) as [Hn _]; [done..|]. fold N in Hn.
  unfold MPC.initial_vars. rewrite Hn.
  destruct (for_range_invariant
    (fun i (v : list R) =>
       Z.of_nat (length v) = 5 * N + 2 * (N - 1)
       /\ forall j, 0 <= j < i -> vec_at v j = 0%R)
    (fun i vars => vec_set vars i 0%R) 0 (5 * N + 2 * (N - 1))
    (MPC.Dvector uninit (5 * N + 2 * (N - 1)))) as (v & Hrun & Hl & Hz).
  - lia.
  - split; [apply Dvector_length|]; lia.
  - intros i v Hi [Hl Hz]. rewrite vec_set_Some by lia.
    eexists. split; [reflexivity|]. rewrite length_insert. split; [done|].
    intros j Hj. destruct (decide (j = i)) as [->|Hne].
    + apply vec_at_insert_eq. lia.
    + rewrite vec_at_insert_ne by lia. apply Hz. lia.
  - exists v. done.
Qed.

Lemma variable_bounds_regions :
  exists lo up,
    MPC.variable_bounds SPEED_UPPERBOUND uninit m = Some (lo, up)
    /\ Z.of_nat (length lo) = 5 * N + 2 * (N - 1)
    /\ Z.of_nat (length up) = 5 * N + 2 * (N - 1)
    /\ (forall j, 0 <= j < 5 * N ->
          vec_at lo j = (- 1.0e19)%R /\ vec_at up j = 1.0e19%R)
    /\ (forall j, 5 * N <= j < 6 * N - 1 ->
          vec_at lo j = (- max_steering_angle)%R
          /\ vec_at up j = max_steering_angle)
    /\ (forall j, 6 * N - 1 <= j < 5 * N + 2 * (N - 1) ->
          vec_at lo j = 0%R /\ vec_at up j = SPEED_UPPERBOUND).
Proof.
  destruct (n_vars_exact m) as [Hn _]; [done..|]. fold N in Hn.
  unfold MPC.variable_bounds. fold ix. rewrite Hn, constructed, layout_exact by done.
  cbn [x_start y_start psi_start cte_start epsi_start delta_start v_start].
  pose proof (Dvector_length (5 * N + 2 * (N - 1))) as HD.
  destruct (fill_pair_loop (- 1.0e19)%R 1.0e19%R
    (MPC.Dvector uninit (5 * N + 2 * (N - 1)))
    (MPC.Dvector uninit (5 * N + 2 * (N - 1))) 0 (5 * N))
    as (l1 & u1 & -> & Hl1 & Hu1 & Hin1 & Hout1); [lia|lia|done|].
  cbn [mbind option_bind].
  destruct (fill_pair_loop (- 0.017453 * delta_constraint)%R
    (0.017453 * delta_constraint)%R l1 u1 (5 * N) (6 * N - 1))
    as (l2 & u2 & -> & Hl2 & Hu2 & Hin2 & Hout2); [lia|lia|congruence|].
  cbn [mbind option_bind].
  destruct (fill_pair_loop 0.0%R SPEED_UPPERBOUND l2 u2
    (6 * N - 1) (5 * N + 2 * (N - 1)))
    as (l3 & u3 & -> & Hl3 & Hu3 & Hin3 & Hout3); [lia|lia|congruence|].
  exists l3, u3. split; [done|]. split; [lia|]. split; [lia|].
  split; [|split].
  - intros j Hj.
    destruct (Hout3 j) as [-> ->]; [lia..|].
    destruct (Hout2 j) as [-> ->]; [lia..|]. apply Hin1. lia.
  - intros j Hj.
    destruct (Hout3 j) as [-> ->]; [lia..|].
    destruct (Hin2 j) as [-> ->]; [lia|].
    unfold max_steering_angle. split; lra.
  - intros j Hj. destruct (Hin3 j) as [-> ->]; [lia|]. split; [lra|done].
Qed.

End Setup.

(** ** Cost and constraint formulator *)

Lemma bind_Some {A B : Type} (a : A) (f : A -> option B) : Some a ≫= f = f a.
Proof. reflexivity. Qed.

(** Runs the next vector access of a straight-line body. *)
Ltac run_step :=
  first [ rewrite bind_Some; cbv beta
        | rewrite vec_get_Some by (rewrite ?length_insert; lia)
        | rewrite vec_set_Some by (rewrite ?length_insert; lia) ].

Ltac run_body := cbv zeta; repeat run_step.

(** Reads an entry of an array after a series of stores. *)
Ltac read_stores :=
  repeat first [ rewrite vec_at_insert_eq by (rewrite ?length_insert; lia)
               | rewrite vec_at_insert_ne by lia ].

Lemma Rsum_snoc f lo n :
  Rsum f lo (S n) = (Rsum f lo n + f (lo + n)%nat)%R.
Proof.
  revert lo. induction n as [|n IH]; intros lo.
  - simpl. rewrite Nat.add_0_r. lra.
  - change (Rsum f lo (S (S n))) with (f lo + Rsum f (S lo) (S n))%R.
    rewrite IH. simpl. replace (S (lo + n)) with (lo + S n)%nat by lia. lra.
Qed.

Lemma Zsum_succ f n : 0 <= n -> Zsum f (n + 1) = (Zsum f n + f n)%R.
Proof.
  intros H. unfold Zsum. replace (Z.to_nat (n + 1)) with (S (Z.to_nat n)) by lia.
  rewrite Rsum_snoc. simpl. rewrite Z2Nat.id by lia. done.
Qed.

(** A loop whose every iteration adds [f t] to [fg[0]] adds their sum. *)
Lemma cost_loop body (f : Z -> R) (fg : list R) n :
  0 <= n ->
  (0 < length fg)%nat ->
  (forall t (fg : list R), 0 <= t < n -> (0 < length fg)%nat ->
     exists fg', body t fg = Some fg'
       /\ length fg' = length fg
       /\ vec_at fg' 0 = (vec_at fg 0 + f t)%R) ->
  exists fg', for_range 0 n body fg = Some fg'
    /\ length fg' = length fg
    /\ vec_at fg' 0 = (vec_at fg 0 + Zsum f n)%R.
Proof.
  intros Hn Hpos Hbody.
  destruct (for_range_invariant
    (fun i (s : list R) =>
       length s = length fg /\ vec_at s 0 = (vec_at fg 0 + Zsum f i)%R)
    body 0 n fg) as (fg' & Hrun & Hinv); [done| | |by exists fg'].
  - split; [done|]. unfold Zsum. simpl. lra.
  - intros i s Hi [Hl Hc].
    destruct (Hbody i s) as (s' & Hs & Hl' & Hc'); [lia|lia|].
    exists s'. split; [done|]. split; [congruence|].
    rewrite Hc', Hc, Zsum_succ by lia. lra.
Qed.

Section Formulator.

Local Open Scope R_scope.

Variable self : FG_eval.t.
Variable vars : list R.

Let p := FG_eval.m_params self.
Let ix := FG_eval.m_indexes self.
Let N := steps_ahead p.

Hypothesis horizon : (2 <= N)%Z.
Hypothesis fits : SizeT.in_range (5 * N + 2 * (N - 1)).
Hypothesis constructed : ix = MPC.layout N.
Hypothesis vars_length : Z.of_nat (length vars) = (5 * N + 2 * (N - 1))%Z.

Lemma fits_bound : (5 * N + 2 * (N - 1) <= 18446744073709551615)%Z.
Proof. destruct fits as [_ H]. rewrite max_value in H. exact H. Qed.

Lemma ix_exact :
  ix = {| x_start := 0; y_start := N; psi_start := 2 * N; cte_start := 3 * N;
          epsi_start := 4 * N; delta_start := 5 * N; v_start := 6 * N - 1 |}.
Proof. rewrite constructed. apply layout_exact; [lia|exact fits]. Qed.

(** Opens a loop body: exact offsets, no wrap-around. *)
Ltac open_body :=
  pose proof fits_bound as Hbound;
  fold p; fold ix; fold N; rewrite ix_exact;
  cbn [x_start y_start psi_start cte_start epsi_start delta_start v_start];
  unwrap.

Lemma cost_reference_adds t (fg : list R) :
  (0 <= t < N)%Z -> (0 < length fg)%nat ->
  exists fg', FG_eval.cost_reference self vars t fg = Some fg'
    /\ length fg' = length fg
    /\ vec_at fg' 0
       = vec_at fg 0 + (cte_coeff p * traj_cte ix vars t ^ 2
                        + epsi_coeff p * traj_epsi ix vars t ^ 2).
Proof.
  intros Ht Hpos. unfold FG_eval.cost_reference, traj_cte, traj_epsi.
  open_body. unfold vec_add_to. run_body.
  eexists. split; [reflexivity|]. rewrite !length_insert. split; [done|].
  rewrite ?Z.add_assoc. read_stores. lra.
Qed.

Lemma cost_actuators_adds t (fg : list R) :
  (0 <= t < N - 1)%Z -> (0 < length fg)%nat ->
  exists fg', FG_eval.cost_actuators self vars t fg = Some fg'
    /\ length fg' = length fg
    /\ vec_at fg' 0
       = vec_at fg 0
         + (speed_coeff p * (traj_v ix vars t - FG_eval.m_ref_v self) ^ 2
            + steer_coeff p * traj_delta ix vars t ^ 2).
Proof.
  intros Ht Hpos. unfold FG_eval.cost_actuators, traj_v, traj_delta.
  open_body. unfold vec_add_to. run_body.
  eexists. split; [reflexivity|]. rewrite !length_insert. split; [done|].
  rewrite ?Z.add_assoc. read_stores. lra.
Qed.

Lemma cost_gaps_adds t (fg : list R) :
  (0 <= t < N - 2)%Z -> (0 < length fg)%nat ->
  exists fg', FG_eval.cost_gaps self vars t fg = Some fg'
    /\ length fg' = length fg
    /\ vec_at fg' 0
       = vec_at fg 0
         + (consec_steer_coeff p
              * (traj_delta ix vars (t + 1) - traj_delta ix vars t) ^ 2
            + consec_speed_coeff p
              * (traj_v ix vars (t + 1) - traj_v ix vars t) ^ 2).
Proof.
  intros Ht Hpos. unfold FG_eval.cost_gaps, traj_v, traj_delta.
  open_body. unfold vec_add_to. run_body.
  eexists. split; [reflexivity|]. rewrite !length_insert. split; [done|].
  rewrite ?Z.add_assoc. read_stores. lra.
Qed.

Lemma initial_constraints_pin (fg : list R) :
  Z.of_nat (length fg) = (1 + 5 * N)%Z ->
  exists fg', FG_eval.initial_constraints self vars fg = Some fg'
    /\ length fg' = length fg
    /\ vec_at fg' 0 = vec_at fg 0
    /\ initial_residuals self vars fg'.
Proof.
  intros Hlen.
  unfold FG_eval.initial_constraints, initial_residuals,
    traj_x, traj_y, traj_psi, traj_cte, traj_epsi.
  open_body. run_body.
  eexists. split; [reflexivity|]. rewrite !length_insert. split; [done|].
  rewrite ?Z.add_0_r. repeat split; read_stores; done.
Qed.

Lemma model_constraints_step t (fg : list R) :
  (1 <= t < N)%Z ->
  Z.of_nat (length fg) = (1 + 5 * N)%Z ->
  exists fg', FG_eval.model_constraints self vars t fg = Some fg'
    /\ length fg' = length fg
    /\ (forall j, (0 <= j)%Z ->
          j <> (1 + x_start ix + t)%Z -> j <> (1 + y_start ix + t)%Z ->
          j <> (1 + psi_start ix + t)%Z -> j <> (1 + cte_start ix + t)%Z ->
          j <> (1 + epsi_start ix + t)%Z ->
          vec_at fg' j = vec_at fg j)
    /\ dynamics_residuals self vars fg' t.
Proof.
  intros Ht Hlen.
  unfold FG_eval.model_constraints, dynamics_residuals,
    traj_x, traj_y, traj_psi, traj_cte, traj_epsi, traj_delta, traj_v.
  rewrite <- (polyeval_poly (FG_eval.m_coeffs self)).
  rewrite <- (polyeval_diff_poly_deriv (FG_eval.m_coeffs self)).
  unfold polyeval, polyeval_diff.
  open_body. run_body.
  eexists. split; [reflexivity|]. rewrite !length_insert. split; [done|].
  split.
  - intros j Hj H1 H2 H3 H4 H5. read_stores. done.
  - rewrite ?Z.add_0_l, ?Z.add_0_r.
    replace (N + (t - 1))%Z with (N + t - 1)%Z by lia.
    replace (2 * N + (t - 1))%Z with (2 * N + t - 1)%Z by lia.
    replace (3 * N + (t - 1))%Z with (3 * N + t - 1)%Z by lia.
    replace (4 * N + (t - 1))%Z with (4 * N + t - 1)%Z by lia.
    replace (5 * N + (t - 1))%Z with (5 * N + t - 1)%Z by lia.
    replace (6 * N - 1 + (t - 1))%Z with (6 * N - 1 + t - 1)%Z by lia.
    repeat split; read_stores; done.
Qed.

(** Residuals already written survive a later step of the loop. *)
Lemma dynamics_residuals_kept (fg fg' : list R) t t' :
  (1 <= t' < t)%Z -> (t < N)%Z ->
  (forall j, (0 <= j)%Z ->
     j <> (1 + x_start ix + t)%Z -> j <> (1 + y_start ix + t)%Z ->
     j <> (1 + psi_start ix + t)%Z -> j <> (1 + cte_start ix + t)%Z ->
     j <> (1 + epsi_start ix + t)%Z ->
     vec_at fg' j = vec_at fg j) ->
  dynamics_residuals self vars fg t' ->
  dynamics_residuals self vars fg' t'.
Proof.
  intros Ht' Ht Hsame. unfold dynamics_residuals. fold p; fold ix; fold N.
  revert Hsame. rewrite ix_exact.
  cbn [x_start y_start psi_start cte_start epsi_start delta_start v_start].
  intros Hsame (H1 & H2 & H3 & H4 & H5).
  rewrite !Hsame by lia. done.
Qed.

Lemma initial_residuals_kept (fg fg' : list R) t :
  (1 <= t < N)%Z ->
  (forall j, (0 <= j)%Z ->
     j <> (1 + x_start ix + t)%Z -> j <> (1 + y_start ix + t)%Z ->
     j <> (1 + psi_start ix + t)%Z -> j <> (1 + cte_start ix + t)%Z ->
     j <> (1 + epsi_start ix + t)%Z ->
     vec_at fg' j = vec_at fg j) ->
  vec_at fg' 0 = vec_at fg 0
  /\ (initial_residuals self vars fg -> initial_residuals self vars fg').
Proof.
  intros Ht. unfold initial_residuals. fold p; fold ix; fold N.
  rewrite ix_exact.
  cbn [x_start y_start psi_start cte_start epsi_start delta_start v_start].
  intros Hsame. split.
  - apply Hsame; lia.
  - intros (H1 & H2 & H3 & H4 & H5). rewrite !Hsame by lia. done.
Qed.

(** The whole of [operator()]: it returns, and leaves in [fg] the cost,
    the initial-state residuals and the residuals of every step. *)
Lemma call_computes (fg : list R) :
  Z.of_nat (length fg) = (1 + 5 * N)%Z ->
  exists fg', FG_eval.call self fg vars = Some fg'
    /\ length fg' = length fg
    /\ vec_at fg' 0 = cost self vars
    /\ initial_residuals self vars fg'
    /\ forall t, (1 <= t < N)%Z -> dynamics_residuals self vars fg' t.
Proof.
  intros Hlen. pose proof fits_bound as Hbound.
  unfold FG_eval.call, cost. fold p; fold ix; fold N.
  rewrite vec_set_Some, bind_Some by lia.
  destruct (cost_loop (FG_eval.cost_reference self vars)
    (fun t => cte_coeff p * traj_cte ix vars t ^ 2
              + epsi_coeff p * traj_epsi ix vars t ^ 2)
    (<[Z.to_nat 0 := 0]> fg) N) as (fg1 & -> & Hl1 & Hc1).
  { lia. } { rewrite length_insert. lia. }
  { intros t s Ht Hs. by apply cost_reference_adds. }
  rewrite bind_Some. rewrite length_insert in Hl1.
  rewrite vec_at_insert_eq in Hc1 by lia.
  unwrap.
  destruct (cost_loop (FG_eval.cost_actuators self vars)
    (fun t => speed_coeff p * (traj_v ix vars t - FG_eval.m_ref_v self) ^ 2
              + steer_coeff p * traj_delta ix vars t ^ 2)
    fg1 (N - 1)) as (fg2 & -> & Hl2 & Hc2).
  { lia. } { lia. }
  { intros t s Ht Hs. by apply cost_actuators_adds. }
  rewrite bind_Some.
  destruct (cost_loop (FG_eval.cost_gaps self vars)
    (fun t => consec_steer_coeff p
                * (traj_delta ix vars (t + 1) - traj_delta ix vars t) ^ 2
              + consec_speed_coeff p
                * (traj_v ix vars (t + 1) - traj_v ix vars t) ^ 2)
    fg2 (N - 2)) as (fg3 & -> & Hl3 & Hc3).
  { lia. } { lia. }
  { intros t s Ht Hs. by apply cost_gaps_adds. }
  rewrite bind_Some.
  destruct (initial_constraints_pin fg3) as (fg4 & -> & Hl4 & Hc4 & Hi4).
  { lia. }
  rewrite bind_Some.
  destruct (for_range_invariant
    (fun t (s : list R) =>
       length s = length fg
       /\ vec_at s 0 = vec_at fg4 0
       /\ initial_residuals self vars s
       /\ forall t', (1 <= t' < t)%Z -> dynamics_residuals self vars s t')
    (FG_eval.model_constraints self vars) 1 N fg4)
    as (fg5 & Hrun & Hl5 & Hc5 & Hi5 & Hr5).
  { lia. }
  { split; [congruence|]. split; [done|]. split; [done|]. intros t' Ht'. lia. }
  { intros t s Ht (Hl & Hc & Hi & Hr).
    destruct (model_constraints_step t s) as (s' & Hs & Hl' & Hsame & Hres);
      [lia|lia|].
    exists s'. split; [done|].
    destruct (initial_residuals_kept s s' t Ht Hsame) as [Hz Hik].
    split; [congruence|]. split; [congruence|]. split; [by apply Hik|].
    intros t' Ht'. destruct (decide (t' = t)) as [->|Hne]; [done|].
    apply (dynamics_residuals_kept s s' t t'); [lia|lia|done|].
    apply Hr. lia. }
  exists fg5. split; [done|]. split; [done|]. split; [|done].
  rewrite Hc5, Hc4, Hc3, Hc2, Hc1. lra.
Qed.

End Formulator.

(** C2.  For every horizon [N >= 2] and every decision-variable array
    [vars] (of the length [5N + 2(N-1)] of the layout), [operator()] returns
    and has written, for each [t = 1..N-1], the five residuals
    [fg[1+x_start+t] = x_t - (x_(t-1) + v_(t-1)*cos(psi_(t-1))*dt)],
    [fg[1+y_start+t] = y_t - (y_(t-1) + v_(t-1)*sin(psi_(t-1))*dt)],
    [fg[1+psi_start+t] = psi_t - (psi_(t-1) - v_(t-1)*delta_(t-1)/Lf*dt)],
    [fg[1+cte_start+t] = cte_t - (f(x_(t-1)) - y_(t-1) + v_(t-1)*sin(epsi_(t-1))*dt)]
    and
    [fg[1+epsi_start+t] = epsi_t - (psi_(t-1) - atan(f'(x_(t-1))) - v_(t-1)*delta_(t-1)/Lf*dt)],
    with [f] the polynomial of the captured coefficients. *)
Theorem dynamics_residuals_written (self : FG_eval.t) (fg vars : list R) :
  2 <= steps_ahead (FG_eval.m_params self) ->
  SizeT.in_range (5 * steps_ahead (FG_eval.m_params self)
                  + 2 * (steps_ahead (FG_eval.m_params self) - 1)) ->
  FG_eval.m_indexes self = MPC.layout (steps_ahead (FG_eval.m_params self)) ->
  Z.of_nat (length vars)
    = 5 * steps_ahead (FG_eval.m_params self)
      + 2 * (steps_ahead (FG_eval.m_params self) - 1) ->
  Z.of_nat (length fg) = 1 + 5 * steps_ahead (FG_eval.m_params self) ->
  exists fg',
    FG_eval.call self fg vars = Some fg'
    /\ forall t, 1 <= t <= steps_ahead (FG_eval.m_params self) - 1 ->
         dynamics_residuals self vars fg' t.
Proof.
  intros HN Hfit Hix Hvars Hfg.
  destruct (call_computes self vars HN Hfit Hix Hvars fg Hfg)
    as (fg' & Hrun & _ & _ & _ & Hres).
  exists fg'. split; [exact Hrun|]. intros t Ht. apply Hres. lia.
Qed.

Lemma dynamics_residuals_written_witness :
  exists fg',
    FG_eval.call (FG_eval.new [1; 2]%R small_params (MPC.layout 3) 1%R)
      (repeat 0%R 16) (repeat 0%R 19) = Some fg'
    /\ dynamics_residuals
         (FG_eval.new [1; 2]%R small_params (MPC.layout 3) 1%R)
         (repeat 0%R 19) fg' 2.
Proof.
  destruct (dynamics_residuals_written
    (FG_eval.new [1; 2]%R small_params (MPC.layout 3) 1%R)
    (repeat 0%R 16) (repeat 0%R 19)) as (fg' & Hrun & Hres).
  - simpl. lia.
  - unfold SizeT.in_range. rewrite max_value. simpl. lia.
  - reflexivity.
  - reflexivity.
  - reflexivity.
  - exists fg'. split; [exact Hrun|]. apply Hres. simpl. lia.
Defined.

(** C3.  For every horizon [N >= 2] and every decision-variable array
    [vars], the cost [fg[0]] that [operator()] computes is the sum over
    [t = 0..N-1] of [cte_coeff*cte_t^2 + epsi_coeff*epsi_t^2], plus the sum
    over [t = 0..N-2] of [speed_coeff*(v_t - ref_v)^2 + steer_coeff*delta_t^2],
    plus the sum over [t = 0..N-3] of
    [consec_steer_coeff*(delta_(t+1) - delta_t)^2
     + consec_speed_coeff*(v_(t+1) - v_t)^2]. *)
Theorem cost_is_three_sums (self : FG_eval.t) (fg vars : list R) :
  2 <= steps_ahead (FG_eval.m_params self) ->
  SizeT.in_range (5 * steps_ahead (FG_eval.m_params self)
                  + 2 * (steps_ahead (FG_eval.m_params self) - 1)) ->
  FG_eval.m_indexes self = MPC.layout (steps_ahead (FG_eval.m_params self)) ->
  Z.of_nat (length vars)
    = 5 * steps_ahead (FG_eval.m_params self)
      + 2 * (steps_ahead (FG_eval.m_params self) - 1) ->
  Z.of_nat (length fg) = 1 + 5 * steps_ahead (FG_eval.m_params self) ->
  exists fg',
    FG_eval.call self fg vars = Some fg'
    /\ vec_at fg' 0
       = (Zsum (fun t =>
                  cte_coeff (FG_eval.m_params self)
                    * traj_cte (FG_eval.m_indexes self) vars t ^ 2
                  + epsi_coeff (FG_eval.m_params self)
                    * traj_epsi (FG_eval.m_indexes self) vars t ^ 2)
               (steps_ahead (FG_eval.m_params self))
          + Zsum (fun t =>
                    speed_coeff (FG_eval.m_params self)
                      * (traj_v (FG_eval.m_indexes self) vars t
                         - FG_eval.m_ref_v self) ^ 2
                    + steer_coeff (FG_eval.m_params self)
                      * traj_delta (FG_eval.m_indexes self) vars t ^ 2)
                 (steps_ahead (FG_eval.m_params self) - 1)
          + Zsum (fun t =>
                    consec_steer_coeff (FG_eval.m_params self)
                      * (traj_delta (FG_eval.m_indexes self) vars (t + 1)
                         - traj_delta (FG_eval.m_indexes self) vars t) ^ 2
                    + consec_speed_coeff (FG_eval.m_params self)
                      * (traj_v (FG_eval.m_indexes self) vars (t + 1)
                         - traj_v (FG_eval.m_indexes self) vars t) ^ 2)
                 (steps_ahead (FG_eval.m_params self) - 2))%R.
Proof.
  intros HN Hfit Hix Hvars Hfg.
  destruct (call_computes self vars HN Hfit Hix Hvars fg Hfg)
    as (fg' & Hrun & _ & Hcost & _).
  exists fg'. split; [exact Hrun|exact Hcost].
Qed.

Lemma cost_is_three_sums_witness :
  exists fg',
    FG_eval.call (FG_eval.new [1; 2]%R small_params (MPC.layout 3) 1%R)
      (repeat 0%R 16) (repeat 0%R 19) = Some fg'
    /\ vec_at fg' 0 = 4%R.
Proof.
  destruct (cost_is_three_sums
    (FG_eval.new [1; 2]%R small_params (MPC.layout 3) 1%R)
    (repeat 0%R 16) (repeat 0%R 19)) as (fg' & Hrun & Hcost).
  - simpl. lia.
  - unfold SizeT.in_range. rewrite max_value. simpl. lia.
  - reflexivity.
  - reflexivity.
  - reflexivity.
  - exists fg'. split; [exact Hrun|]. rewrite Hcost.
    unfold Zsum, traj_cte, traj_epsi, traj_v, traj_delta, vec_at. simpl. lra.
Defined.

(** ** Solver driver: constraint bounds and the whole setup *)

Section SetupConstraints.

Variable SPEED_UPPERBOUND : R.
Variable uninit : R.
Variable m : MPC.t.

Let N := steps_ahead (MPC.m_params m).
Let ix := MPC.m_indexes m.

Hypothesis horizon : 1 <= N.
Hypothesis fits : SizeT.in_range (5 * N + 2 * (N - 1)).
Hypothesis constructed : ix = MPC.layout N.

Lemma constraint_bounds_pinned (x y psi cte epsi : R) :
  exists lo up,
    MPC.constraint_bounds uninit m x y psi cte epsi = Some (lo, up)
    /\ Z.of_nat (length lo) = 5 * N
    /\ Z.of_nat (length up) = 5 * N
    /\ (vec_at lo (x_start ix) = x /\ vec_at up (x_start ix) = x)
    /\ (vec_at lo (y_start ix) = y /\ vec_at up (y_start ix) = y)
    /\ (vec_at lo (psi_start ix) = psi /\ vec_at up (psi_start ix) = psi)
    /\ (vec_at lo (cte_start ix) = cte /\ vec_at up (cte_start ix) = cte)
    /\ (vec_at lo (epsi_start ix) = epsi /\ vec_at up (epsi_start ix) = epsi)
    /\ (forall j, 0 <= j < 5 * N ->
          j <> x_start ix -> j <> y_start ix -> j <> psi_start ix ->
          j <> cte_start ix -> j <> epsi_start ix ->
          vec_at lo j = 0%R /\ vec_at up j = 0%R).
Proof.
  destruct (n_vars_exact m) as [_ Hn]; [done..|]. fold N in Hn.
  unfold MPC.constraint_bounds. fold ix.
  rewrite Hn, constructed, layout_exact by done.
  cbn [x_start y_start psi_start cte_start epsi_start delta_start v_start].
  pose proof (Dvector_length uninit (5 * N)) as HD.
  destruct (fill_pair_loop 0%R 0%R
    (MPC.Dvector uninit (5 * N)) (MPC.Dvector uninit (5 * N)) 0 (5 * N))
    as (l & u & -> & Hl & Hu & Hin & _); [lia|lia|done|].
  rewrite bind_Some. cbv beta iota.
  assert (Z.of_nat (length l) = 5 * N) as Hl' by lia.
  assert (Z.of_nat (length u) = 5 * N) as Hu' by lia.
  run_body.
  eexists _, _. split; [reflexivity|]. rewrite !length_insert.
  split; [done|]. split; [done|].
  repeat split; read_stores; try done; apply Hin; lia.
Qed.

(** [Solve] reaches the solver, with these arguments. *)
Lemma Solve_setup_builds (state : list R) :
  (5 <= length state)%nat ->
  exists vars lo up glo gup,
    MPC.Solve_setup SPEED_UPPERBOUND uninit m state
    = Some {| options := MPC.solver_options; xi := vars;
              xl := lo; xu := up; gl := glo; gu := gup |}
    /\ MPC.initial_vars uninit m = Some vars
    /\ MPC.variable_bounds SPEED_UPPERBOUND uninit m = Some (lo, up)
    /\ MPC.constraint_bounds uninit m (vec_at state 0) (vec_at state 1)
         (vec_at state 2) (vec_at state 3) (vec_at state 4)
       = Some (glo, gup).
Proof.
  intros Hstate.
  destruct (initial_vars_zero uninit m horizon fits) as (vars & Hvars & _).
  destruct (variable_bounds_regions SPEED_UPPERBOUND uninit m horizon fits
              constructed) as (lo & up & Hvb & _).
  destruct (constraint_bounds_pinned (vec_at state 0) (vec_at state 1)
              (vec_at state 2) (vec_at state 3) (vec_at state 4))
    as (glo & gup & Hcb & _).
  exists vars, lo, up, glo, gup.
  split; [|done]. unfold MPC.Solve_setup.
  rewrite !vec_get_Some by lia. rewrite !bind_Some.
  rewrite Hvars, bind_Some, Hvb, bind_Some. cbv beta iota.
  rewrite Hcb, bind_Some. done.
Qed.

End SetupConstraints.

(** Only the first five entries of the state are read. *)
Lemma Solve_setup_take SPEED_UPPERBOUND uninit m (state : list R) :
  MPC.Solve_setup SPEED_UPPERBOUND uninit m state
  = MPC.Solve_setup SPEED_UPPERBOUND uninit m (take 5 state).
Proof.
  unfold MPC.Solve_setup, vec_get.
  repeat (destruct (decide _) as [_|]; [|lia]).
  rewrite !lookup_take_lt by (simpl; lia). done.
Qed.

(** ** Solver driver: the whole of [Solve] *)

Section SolveFacts.

Variable SPEED_UPPERBOUND : R.
Variable ipopt_solve :
  solve_args -> (list R -> list R -> option (list R)) -> solve_result.
Variable uninit : R.
Variable m : MPC.t.

Let N := steps_ahead (MPC.m_params m).
Let ix := MPC.m_indexes m.

(** What [Solve] returns is read off the solver's iterate alone. *)
Lemma Solve_inv state coeffs new_ref_v out :
  MPC.Solve SPEED_UPPERBOUND ipopt_solve uninit m state coeffs new_ref_v
  = Some out ->
  exists args,
    MPC.Solve_setup SPEED_UPPERBOUND uninit m state = Some args
    /\ MPC.ros_warn out
       = (obj_value (solver_answer ipopt_solve m args coeffs new_ref_v),
          bool_decide
            (status (solver_answer ipopt_solve m args coeffs new_ref_v)
             = success))
    /\ MPC.returned out
       = vec_at (x (solver_answer ipopt_solve m args coeffs new_ref_v))
           (delta_start ix)
         :: vec_at (x (solver_answer ipopt_solve m args coeffs new_ref_v))
              (v_start ix)
         :: predicted_pairs ix
              (x (solver_answer ipopt_solve m args coeffs new_ref_v)) N.
Proof.
  unfold MPC.Solve.
  destruct (MPC.Solve_setup SPEED_UPPERBOUND uninit m state) as [args|];
    [|discriminate].
  rewrite bind_Some. cbv zeta. fold (solver_answer ipopt_solve m args coeffs new_ref_v).
  destruct (MPC.Solve_extract m _) as [r|] eqn:Hr; [|discriminate].
  rewrite bind_Some. intros [= <-]. exists args. split; [done|].
  cbn [MPC.ros_warn MPC.returned]. split; [done|].
  by apply Solve_extract_inv.
Qed.

(** [Solve] returns whenever the solver hands back a full iterate,
    whatever status it reports. *)
Lemma Solve_returns state coeffs new_ref_v :
  2 <= N ->
  SizeT.in_range (5 * N + 2 * (N - 1)) ->
  ix = MPC.layout N ->
  (5 <= length state)%nat ->
  (forall args fg_eval,
     Z.of_nat (length (x (ipopt_solve args fg_eval))) = 5 * N + 2 * (N - 1)) ->
  exists out,
    MPC.Solve SPEED_UPPERBOUND ipopt_solve uninit m state coeffs new_ref_v
    = Some out.
Proof.
  intros HN Hfit Hix Hstate Hsol.
  destruct (Solve_setup_builds SPEED_UPPERBOUND uninit m) with (state := state)
    as (vars & lo & up & glo & gup & Hsetup & _); [lia|done|done|done|].
  unfold MPC.Solve. rewrite Hsetup, bind_Some. cbv zeta.
  rewrite (Solve_extract_Some m _ HN Hfit Hix) by apply Hsol.
  rewrite bind_Some. eauto.
Qed.

Lemma Solve_take state coeffs new_ref_v :
  MPC.Solve SPEED_UPPERBOUND ipopt_solve uninit m state coeffs new_ref_v
  = MPC.Solve SPEED_UPPERBOUND ipopt_solve uninit m (take 5 state) coeffs
      new_ref_v.
Proof. unfold MPC.Solve. by rewrite <- Solve_setup_take. Qed.

End SolveFacts.

(** C6.  In a call of [Solve] (horizon at least one step, array length a
    [size_t], state of at least five entries) the solver is reached and the
    bound arrays it receives are: [-1e19] and [+1e19] for every state
    variable (indices below [delta_start]); [-max_steering_angle] and
    [+max_steering_angle] for every steering variable
    ([delta_start..v_start-1]); [0] and the maximal speed for every speed
    variable ([v_start..n_vars-1]); and [[0,0]] for every constraint, except
    the five at [x_start], [y_start], [psi_start], [cte_start], [epsi_start],
    whose two bounds are the corresponding entry of the state. *)
Theorem solver_bounds (SPEED_UPPERBOUND uninit : R) (p : Params) (m : MPC.t)
    (state : list R) :
  1 <= steps_ahead p ->
  SizeT.in_range (5 * steps_ahead p + 2 * (steps_ahead p - 1)) ->
  MPC.new SPEED_UPPERBOUND p = Some m ->
  (5 <= length state)%nat ->
  exists args,
    MPC.Solve_setup SPEED_UPPERBOUND uninit m state = Some args
    /\ Z.of_nat (length (xl args)) = MPC.n_vars m
    /\ Z.of_nat (length (xu args)) = MPC.n_vars m
    /\ Z.of_nat (length (gl args)) = MPC.n_constraints m
    /\ Z.of_nat (length (gu args)) = MPC.n_constraints m
    /\ (forall i, 0 <= i < delta_start (MPC.m_indexes m) ->
          vec_at (xl args) i = (- 1.0e19)%R /\ vec_at (xu args) i = 1.0e19%R)
    /\ (forall i,
          delta_start (MPC.m_indexes m) <= i < v_start (MPC.m_indexes m) ->
          vec_at (xl args) i = (- max_steering_angle)%R
          /\ vec_at (xu args) i = max_steering_angle)
    /\ (forall i, v_start (MPC.m_indexes m) <= i < MPC.n_vars m ->
          vec_at (xl args) i = 0%R /\ vec_at (xu args) i = SPEED_UPPERBOUND)
    /\ (vec_at (gl args) (x_start (MPC.m_indexes m)) = vec_at state 0
        /\ vec_at (gu args) (x_start (MPC.m_indexes m)) = vec_at state 0)
    /\ (vec_at (gl args) (y_start (MPC.m_indexes m)) = vec_at state 1
        /\ vec_at (gu args) (y_start (MPC.m_indexes m)) = vec_at state 1)
    /\ (vec_at (gl args) (psi_start (MPC.m_indexes m)) = vec_at state 2
        /\ vec_at (gu args) (psi_start (MPC.m_indexes m)) = vec_at state 2)
    /\ (vec_at (gl args) (cte_start (MPC.m_indexes m)) = vec_at state 3
        /\ vec_at (gu args) (cte_start (MPC.m_indexes m)) = vec_at state 3)
    /\ (vec_at (gl args) (epsi_start (MPC.m_indexes m)) = vec_at state 4
        /\ vec_at (gu args) (epsi_start (MPC.m_indexes m)) = vec_at state 4)
    /\ (forall j, 0 <= j < MPC.n_constraints m ->
          j <> x_start (MPC.m_indexes m) -> j <> y_start (MPC.m_indexes m) ->
          j <> psi_start (MPC.m_indexes m) ->
          j <> cte_start (MPC.m_indexes m) ->
          j <> epsi_start (MPC.m_indexes m) ->
          vec_at (gl args) j = 0%R /\ vec_at (gu args) j = 0%R).
Proof.
  intros HN Hfit Hnew Hstate. apply new_Some in Hnew as [-> _].
  set (m := {| MPC.m_params := p; MPC.m_indexes := MPC.layout (steps_ahead p) |}).
  assert (Hix : MPC.m_indexes m = MPC.layout (steps_ahead (MPC.m_params m)))
    by reflexivity.
  change (steps_ahead p) with (steps_ahead (MPC.m_params m)) in HN, Hfit.
  destruct (Solve_setup_builds SPEED_UPPERBOUND uninit m HN Hfit Hix state Hstate)
    as (vars & lo & up & glo & gup & -> & _ & Hvb & Hcb).
  destruct (variable_bounds_regions SPEED_UPPERBOUND uninit m HN Hfit Hix)
    as (lo' & up' & Hvb' & Hllo & Hlup & Hstate_vars & Hsteer & Hspeed).
  rewrite Hvb in Hvb'. injection Hvb' as <- <-.
  destruct (constraint_bounds_pinned uninit m HN Hfit Hix
              (vec_at state 0) (vec_at state 1) (vec_at state 2)
              (vec_at state 3) (vec_at state 4))
    as (glo' & gup' & Hcb' & Hlglo & Hlgup & Hx & Hy & Hpsi & Hcte & Hepsi & Hzero).
  rewrite Hcb in Hcb'. injection Hcb' as <- <-.
  destruct (n_vars_exact m HN Hfit) as [-> ->].
  eexists. split; [reflexivity|]. cbn [xl xu gl gu].
  rewrite Hix, layout_exact in * by done.
  cbn [x_start y_start psi_start cte_start epsi_start delta_start v_start] in *.
  repeat (split; [done|]). done.
Qed.

Lemma solver_bounds_witness :
  exists args,
    MPC.Solve_setup 2 0 small_mpc [0; 0; 0; 1; 0.1]%R = Some args
    /\ vec_at (gl args) 9 = 1%R
    /\ vec_at (xu args) 15 = max_steering_angle.
Proof.
  assert (H1 : 1 <= steps_ahead small_params) by (simpl; lia).
  assert (Hfit : SizeT.in_range (5 * steps_ahead small_params
                                 + 2 * (steps_ahead small_params - 1)))
    by (unfold SizeT.in_range; rewrite max_value; simpl; lia).
  assert (Hnew : MPC.new 2 small_params = Some small_mpc)
    by (apply (new_accepts 2 small_params); simpl; lra).
  assert (Hst : (5 <= length [0; 0; 0; 1; 0.1]%R)%nat) by (simpl; lia).
  destruct (solver_bounds 2 0 small_params small_mpc [0; 0; 0; 1; 0.1]%R
              H1 Hfit Hnew Hst)
    as (args & Hrun & _ & _ & _ & _ & _ & Hsteer & _ & _ & _ & _ & Hcte & _).
  exists args. split; [exact Hrun|]. split.
  - exact (proj1 Hcte).
  - apply Hsteer. change (15 <= 15 < 17). lia.
Defined.

(** C4.  A call of [Solve] with a state of at least five entries reads only
    the first five, in the order [(x, y, psi, cte, epsi)]: the call is the
    same on the state cut after five entries; [state[3]] bounds the constraint
    at [cte_start] and [state[4]] the one at [epsi_start], whose residuals
    are the first cross-track and heading error of the trajectory; every
    other constraint bound than the five is zero, and the start values and
    bounds of the variables, those of the speed among them, are the same for
    every state. *)
Theorem state_read_as_five (SPEED_UPPERBOUND uninit : R)
    (ipopt_solve : solve_args -> (list R -> list R -> option (list R))
                   -> solve_result)
    (p : Params) (m : MPC.t) (state coeffs : list R) (new_ref_v : R) :
  2 <= steps_ahead p ->
  SizeT.in_range (5 * steps_ahead p + 2 * (steps_ahead p - 1)) ->
  MPC.new SPEED_UPPERBOUND p = Some m ->
  (5 <= length state)%nat ->
  MPC.Solve SPEED_UPPERBOUND ipopt_solve uninit m state coeffs new_ref_v
  = MPC.Solve SPEED_UPPERBOUND ipopt_solve uninit m (take 5 state) coeffs
      new_ref_v
  /\ exists args,
       MPC.Solve_setup SPEED_UPPERBOUND uninit m state = Some args
       /\ (vec_at (gl args) (x_start (MPC.m_indexes m)) = vec_at state 0
           /\ vec_at (gu args) (x_start (MPC.m_indexes m)) = vec_at state 0)
       /\ (vec_at (gl args) (y_start (MPC.m_indexes m)) = vec_at state 1
           /\ vec_at (gu args) (y_start (MPC.m_indexes m)) = vec_at state 1)
       /\ (vec_at (gl args) (psi_start (MPC.m_indexes m)) = vec_at state 2
           /\ vec_at (gu args) (psi_start (MPC.m_indexes m)) = vec_at state 2)
       /\ (vec_at (gl args) (cte_start (MPC.m_indexes m)) = vec_at state 3
           /\ vec_at (gu args) (cte_start (MPC.m_indexes m)) = vec_at state 3)
       /\ (vec_at (gl args) (epsi_start (MPC.m_indexes m)) = vec_at state 4
           /\ vec_at (gu args) (epsi_start (MPC.m_indexes m)) = vec_at state 4)
       /\ (forall j, 0 <= j < MPC.n_constraints m ->
             j <> x_start (MPC.m_indexes m) ->
             j <> y_start (MPC.m_indexes m) ->
             j <> psi_start (MPC.m_indexes m) ->
             j <> cte_start (MPC.m_indexes m) ->
             j <> epsi_start (MPC.m_indexes m) ->
             vec_at (gl args) j = 0%R /\ vec_at (gu args) j = 0%R)
       /\ (forall state' : list R, (5 <= length state')%nat ->
             exists args',
               MPC.Solve_setup SPEED_UPPERBOUND uninit m state' = Some args'
               /\ xi args' = xi args
               /\ xl args' = xl args /\ xu args' = xu args)
       /\ (forall fg vars : list R,
             Z.of_nat (length vars) = MPC.n_vars m ->
             Z.of_nat (length fg) = 1 + MPC.n_constraints m ->
             exists fg',
               FG_eval.call
                 (FG_eval.new coeffs (MPC.m_params m) (MPC.m_indexes m)
                    new_ref_v) fg vars = Some fg'
               /\ initial_residuals
                    (FG_eval.new coeffs (MPC.m_params m) (MPC.m_indexes m)
                       new_ref_v) vars fg').
Proof.
  intros HN Hfit Hnew Hstate. split; [apply Solve_take|].
  apply new_Some in Hnew as [-> _].
  set (m := {| MPC.m_params := p; MPC.m_indexes := MPC.layout (steps_ahead p) |}).
  assert (Hix : MPC.m_indexes m = MPC.layout (steps_ahead (MPC.m_params m)))
    by reflexivity.
  change (steps_ahead p) with (steps_ahead (MPC.m_params m)) in HN, Hfit.
  assert (H1 : 1 <= steps_ahead (MPC.m_params m)) by lia.
  destruct (Solve_setup_builds SPEED_UPPERBOUND uninit m H1 Hfit Hix state Hstate)
    as (vars & lo & up & glo & gup & -> & Hiv & Hvb & Hcb).
  destruct (constraint_bounds_pinned uninit m H1 Hfit Hix
              (vec_at state 0) (vec_at state 1) (vec_at state 2)
              (vec_at state 3) (vec_at state 4))
    as (glo' & gup' & Hcb' & _ & _ & Hx & Hy & Hpsi & Hcte & Hepsi & Hzero).
  rewrite Hcb in Hcb'. injection Hcb' as <- <-.
  destruct (n_vars_exact m H1 Hfit) as [Hnv Hnc].
  eexists. split; [reflexivity|]. cbn [xi xl xu gl gu].
  repeat (split; [done|]). split; [|split].
  - rewrite Hnc. exact Hzero.
  - intros state' Hstate'.
    destruct (Solve_setup_builds SPEED_UPPERBOUND uninit m H1 Hfit Hix state'
                Hstate')
      as (vars' & lo' & up' & glo' & gup' & -> & Hiv' & Hvb' & _).
    eexists. split; [reflexivity|]. cbn [xi xl xu].
    rewrite Hiv in Hiv'. rewrite Hvb in Hvb'.
    injection Hiv' as <-. injection Hvb' as <- <-. done.
  - intros fg vs Hvs Hfg. rewrite Hnv in Hvs. rewrite Hnc in Hfg.
    destruct (call_computes
                (FG_eval.new coeffs (MPC.m_params m) (MPC.m_indexes m) new_ref_v)
                vs HN Hfit Hix Hvs fg) as (fg' & Hrun & _ & _ & Hinit & _).
    + exact Hfg.
    + exists fg'. done.
Qed.

Lemma state_read_as_five_witness :
  MPC.Solve 2 (fun _ _ => answer_converged) 0 small_mpc
    [0; 0; 0; 1; 0.1; 10]%R [1; 2]%R 1
  = MPC.Solve 2 (fun _ _ => answer_converged) 0 small_mpc
      [0; 0; 0; 1; 0.1]%R [1; 2]%R 1.
Proof.
  assert (H2 : 2 <= steps_ahead small_params) by (simpl; lia).
  assert (Hfit : SizeT.in_range (5 * steps_ahead small_params
                                 + 2 * (steps_ahead small_params - 1)))
    by (unfold SizeT.in_range; rewrite max_value; simpl; lia).
  assert (Hnew : MPC.new 2 small_params = Some small_mpc)
    by (apply (new_accepts 2 small_params); simpl; lra).
  assert (Hst : (5 <= length [0; 0; 0; 1; 0.1; 10]%R)%nat) by (simpl; lia).
  exact (proj1 (state_read_as_five 2 0 (fun _ _ => answer_converged)
                  small_params small_mpc [0; 0; 0; 1; 0.1; 10]%R [1; 2]%R 1
                  H2 Hfit Hnew Hst)).
Defined.

(** C7.  When a call of [Solve] returns, the returned vector has length
    [2 + 2N] and holds, in order, [solution.x[delta_start]],
    [solution.x[v_start]], and then for each [t = 0..N-1] the pair
    [solution.x[x_start+t]], [solution.x[y_start+t]]. *)
Theorem Solve_returned_vector (SPEED_UPPERBOUND uninit : R)
    (ipopt_solve : solve_args -> (list R -> list R -> option (list R))
                   -> solve_result)
    (m : MPC.t) (state coeffs : list R) (new_ref_v : R) (out : MPC.outcome) :
  SizeT.in_range (steps_ahead (MPC.m_params m)) ->
  MPC.Solve SPEED_UPPERBOUND ipopt_solve uninit m state coeffs new_ref_v
  = Some out ->
  exists args solution,
    MPC.Solve_setup SPEED_UPPERBOUND uninit m state = Some args
    /\ solution = solver_answer ipopt_solve m args coeffs new_ref_v
    /\ Z.of_nat (length (MPC.returned out))
       = 2 + 2 * steps_ahead (MPC.m_params m)
    /\ MPC.returned out !! 0%nat
       = Some (vec_at (x solution) (delta_start (MPC.m_indexes m)))
    /\ MPC.returned out !! 1%nat
       = Some (vec_at (x solution) (v_start (MPC.m_indexes m)))
    /\ forall t, 0 <= t < steps_ahead (MPC.m_params m) ->
         MPC.returned out !! Z.to_nat (2 + 2 * t)
         = Some (vec_at (x solution) (x_start (MPC.m_indexes m) +w t))
         /\ MPC.returned out !! Z.to_nat (2 + 2 * t + 1)
            = Some (vec_at (x solution) (y_start (MPC.m_indexes m) +w t)).
Proof.
  intros [HN _] Hrun.
  apply Solve_inv in Hrun as (args & Hsetup & _ & Hret).
  exists args, (solver_answer ipopt_solve m args coeffs new_ref_v).
  split; [exact Hsetup|]. split; [reflexivity|]. rewrite Hret.
  split; [|split; [reflexivity|split; [reflexivity|]]].
  - cbn [length]. rewrite !Nat2Z.inj_succ, predicted_pairs_length by exact HN. lia.
  - intros t Ht.
    destruct (predicted_pairs_lookup m
                (x (solver_answer ipopt_solve m args coeffs new_ref_v)) t Ht)
      as [Hx Hy].
    replace (Z.to_nat (2 + 2 * t)) with (S (S (Z.to_nat (2 * t)))) by lia.
    replace (Z.to_nat (2 + 2 * t + 1)) with (S (S (Z.to_nat (2 * t + 1)))) by lia.
    cbn [lookup list_lookup]. split; [exact Hx|exact Hy].
Qed.

Lemma Solve_returned_vector_witness :
  exists out,
    MPC.Solve 2 (fun _ _ => answer_converged) 0 small_mpc
      [0; 0; 0; 1; 0.1]%R [1; 2]%R 1 = Some out
    /\ Z.of_nat (length (MPC.returned out)) = 8.
Proof.
  destruct (Solve_returns 2 (fun _ _ => answer_converged) 0 small_mpc
              [0; 0; 0; 1; 0.1]%R [1; 2]%R 1) as [out Hout].
  - simpl. lia.
  - unfold SizeT.in_range. rewrite max_value. simpl. lia.
  - reflexivity.
  - simpl. lia.
  - intros args fg_eval. reflexivity.
  - exists out. split; [exact Hout|].
    destruct (Solve_returned_vector 2 0 (fun _ _ => answer_converged) small_mpc
                [0; 0; 0; 1; 0.1]%R [1; 2]%R 1 out)
      as (args & solution & _ & _ & Hlen & _).
    + unfold SizeT.in_range. rewrite max_value. simpl. lia.
    + exact Hout.
    + exact Hlen.
Defined.

(** Against C1 as stated: a call in which the solver converged and a call
    in which it stopped early with the same iterate return the same vector,
    so the returned value carries no mark of non-convergence. *)
Lemma Solve_result_carries_no_tag :
  exists out_ok out_bad,
    MPC.Solve 2 (fun _ _ => answer_converged) 0 small_mpc
      [0; 0; 0; 1; 0.1]%R [1; 2]%R 1 = Some out_ok
    /\ MPC.Solve 2 (fun _ _ => answer_stopped) 0 small_mpc
         [0; 0; 0; 1; 0.1]%R [1; 2]%R 1 = Some out_bad
    /\ status answer_converged = success
    /\ status answer_stopped <> success
    /\ MPC.returned out_bad = MPC.returned out_ok.
Proof.
  assert (H2 : 2 <= steps_ahead (MPC.m_params small_mpc)) by (simpl; lia).
  assert (Hfit : SizeT.in_range
                   (5 * steps_ahead (MPC.m_params small_mpc)
                    + 2 * (steps_ahead (MPC.m_params small_mpc) - 1)))
    by (unfold SizeT.in_range; rewrite max_value; simpl; lia).
  assert (Hst : (5 <= length [0; 0; 0; 1; 0.1]%R)%nat) by (simpl; lia).
  destruct (Solve_returns 2 (fun _ _ => answer_converged) 0 small_mpc
              [0; 0; 0; 1; 0.1]%R [1; 2]%R 1 H2 Hfit eq_refl Hst)
    as [out_ok Hok]; [intros; reflexivity|].
  destruct (Solve_returns 2 (fun _ _ => answer_stopped) 0 small_mpc
              [0; 0; 0; 1; 0.1]%R [1; 2]%R 1 H2 Hfit eq_refl Hst)
    as [out_bad Hbad]; [intros; reflexivity|].
  exists out_ok, out_bad. split; [exact Hok|]. split; [exact Hbad|].
  split; [reflexivity|]. split; [discriminate|].
  apply Solve_inv in Hok as (? & _ & _ & ->).
  apply Solve_inv in Hbad as (? & _ & _ & ->).
  reflexivity.
Qed.

(** C1, amended.  In every call of [Solve] in which the solver hands back
    an iterate of full length, whatever the status it reports, [Solve]
    returns the result extracted from that iterate: the first steering and
    speed and the predicted pairs.  The flag [ok], true exactly when the
    status is [success], goes to the log line only; the returned vector is a
    function of the iterate alone. *)
Theorem nonconvergence_only_logged (SPEED_UPPERBOUND uninit : R)
    (ipopt_solve : solve_args -> (list R -> list R -> option (list R))
                   -> solve_result)
    (p : Params) (m : MPC.t) (state coeffs : list R) (new_ref_v : R) :
  2 <= steps_ahead p ->
  SizeT.in_range (5 * steps_ahead p + 2 * (steps_ahead p - 1)) ->
  MPC.new SPEED_UPPERBOUND p = Some m ->
  (5 <= length state)%nat ->
  (forall args fg_eval,
     Z.of_nat (length (x (ipopt_solve args fg_eval))) = MPC.n_vars m) ->
  exists args solution out,
    MPC.Solve_setup SPEED_UPPERBOUND uninit m state = Some args
    /\ solution = solver_answer ipopt_solve m args coeffs new_ref_v
    /\ MPC.Solve SPEED_UPPERBOUND ipopt_solve uninit m state coeffs new_ref_v
       = Some out
    /\ MPC.returned out
       = vec_at (x solution) (delta_start (MPC.m_indexes m))
         :: vec_at (x solution) (v_start (MPC.m_indexes m))
         :: predicted_pairs (MPC.m_indexes m) (x solution) (steps_ahead p)
    /\ MPC.ros_warn out
       = (obj_value solution, bool_decide (status solution = success)).
Proof.
  intros HN Hfit Hnew Hstate Hsol. apply new_Some in Hnew as [-> _].
  set (m := {| MPC.m_params := p; MPC.m_indexes := MPC.layout (steps_ahead p) |})
    in *.
  change (steps_ahead p) with (steps_ahead (MPC.m_params m)) in HN, Hfit.
  destruct (n_vars_exact m) as [Hnv _]; [lia|done|]. rewrite Hnv in Hsol.
  destruct (Solve_returns SPEED_UPPERBOUND ipopt_solve uninit m state coeffs
              new_ref_v HN Hfit eq_refl Hstate Hsol) as [out Hout].
  destruct (Solve_inv _ _ _ _ _ _ _ _ Hout) as (args & Hsetup & Hlog & Hret).
  exists args, (solver_answer ipopt_solve m args coeffs new_ref_v), out.
  done.
Qed.

Lemma nonconvergence_only_logged_witness :
  exists out,
    MPC.Solve 2 (fun _ _ => answer_stopped) 0 small_mpc
      [0; 0; 0; 1; 0.1]%R [1; 2]%R 1 = Some out
    /\ MPC.ros_warn out = (4%R, false).
Proof.
  assert (H2 : 2 <= steps_ahead small_params) by (simpl; lia).
  assert (Hfit : SizeT.in_range (5 * steps_ahead small_params
                                 + 2 * (steps_ahead small_params - 1)))
    by (unfold SizeT.in_range; rewrite max_value; simpl; lia).
  assert (Hnew : MPC.new 2 small_params = Some small_mpc)
    by (apply (new_accepts 2 small_params); simpl; lra).
  assert (Hst : (5 <= length [0; 0; 0; 1; 0.1]%R)%nat) by (simpl; lia).
  destruct (nonconvergence_only_logged 2 0 (fun _ _ => answer_stopped)
              small_params small_mpc [0; 0; 0; 1; 0.1]%R [1; 2]%R 1
              H2 Hfit Hnew Hst)
    as (args & solution & out & _ & Hsol & Hout & _ & Hlog);
    [intros; reflexivity|].
  exists out. split; [exact Hout|]. rewrite Hlog, Hsol. reflexivity.
Defined.

(** Against C8 as stated: with a target speed below the maximal speed the
    constructor accepts the degenerate horizon [N = 1]. *)
Lemma constructor_accepts_degenerate_horizon :
  steps_ahead degenerate_params < 2
  /\ MPC.new 2 degenerate_params
     = Some {| MPC.m_params := degenerate_params;
               MPC.m_indexes := MPC.layout 1 |}.
Proof.
  split; [simpl; lia|]. apply (new_accepts 2 degenerate_params). simpl. lra.
Qed.

(** C8, amended.  The constructor refuses to initialise exactly when the
    target speed [ref_v] is greater than or equal to the maximal speed; the
    horizon plays no part in the check. *)
Theorem constructor_rejects_speed_only (SPEED_UPPERBOUND : R) (p : Params) :
  MPC.new SPEED_UPPERBOUND p = None <-> (SPEED_UPPERBOUND <= ref_v p)%R.
Proof.
  unfold MPC.new. destruct (Rlt_dec (ref_v p) SPEED_UPPERBOUND) as [Hlt|Hge].
  - split; [discriminate|]. intros H. lra.
  - split; [|done]. intros _. lra.
Qed.

(** ** Curve fitter: the design matrix and the fit *)

Section PolyfitFacts.

Variable uninit : R.

Lemma mat_get_Some A n c j i :
  shape A n c -> 0 <= j < n -> 0 <= i < c ->
  mat_get A j i = Some (mat_at A j i).
Proof.
  intros [Hn Hc] Hj Hi. unfold mat_get, mat_at.
  destruct (decide (0 <= j)) as [_|]; [|lia].
  destruct (lookup_lt_is_Some_2 A (Z.to_nat j)) as [row Hrow]; [lia|].
  pose proof (Forall_lookup_1 _ _ _ _ Hc Hrow) as Hlen. cbv beta in Hlen.
  rewrite Hrow, bind_Some. cbn [default from_option Datatypes.id].
  apply vec_get_Some. lia.
Qed.

Lemma mat_set_Some A n c j i v :
  shape A n c -> 0 <= j < n -> 0 <= i < c ->
  exists A',
    mat_set A j i v = Some A'
    /\ shape A' n c
    /\ mat_at A' j i = v
    /\ forall j' i', 0 <= j' -> 0 <= i' -> (j' <> j \/ i' <> i) ->
         mat_at A' j' i' = mat_at A j' i'.
Proof.
  intros [Hn Hc] Hj Hi. unfold mat_set.
  destruct (decide (0 <= j)) as [_|]; [|lia].
  destruct (lookup_lt_is_Some_2 A (Z.to_nat j)) as [row Hrow]; [lia|].
  pose proof (Forall_lookup_1 _ _ _ _ Hc Hrow) as Hlen. cbv beta in Hlen.
  rewrite Hrow, bind_Some, vec_set_Some, bind_Some by lia.
  eexists. split; [reflexivity|]. split; [|split].
  - split; [by rewrite length_insert|].
    apply Forall_insert; [done|]. by rewrite length_insert.
  - unfold mat_at. rewrite list_lookup_insert_eq by lia. cbn [default from_option Datatypes.id].
    apply vec_at_insert_eq. lia.
  - intros j' i' Hj' Hi' Hne. unfold mat_at.
    destruct (decide (j' = j)) as [->|Hjj].
    + rewrite list_lookup_insert_eq by lia. rewrite Hrow. cbn [default from_option Datatypes.id].
      apply vec_at_insert_ne; lia.
    + rewrite list_lookup_insert_ne by lia. done.
Qed.

Lemma shape_unique_rows A B n c :
  shape A n c -> shape B n c ->
  (forall j i, 0 <= j < n -> 0 <= i < c -> mat_at A j i = mat_at B j i) ->
  A = B.
Proof.
  intros [HnA HcA] [HnB HcB] Heq.
  apply (list_eq_same_length A B (length A)); [lia|done|].
  intros j ra rb Hj Ha Hb.
  pose proof (Forall_lookup_1 _ _ _ _ HcA Ha) as Hla.
  pose proof (Forall_lookup_1 _ _ _ _ HcB Hb) as Hlb. cbv beta in Hla, Hlb.
  apply (list_eq_same_length ra rb (length ra)); [lia|done|].
  intros i a b Hi Hia Hib.
  specialize (Heq (Z.of_nat j) (Z.of_nat i)). unfold mat_at, vec_at in Heq.
  rewrite !Nat2Z.id, Ha, Hb in Heq. cbn [default from_option Datatypes.id] in Heq.
  rewrite Hia, Hib in Heq. cbn [default from_option Datatypes.id] in Heq. apply Heq; lia.
Qed.

Lemma vandermonde_shape xs order :
  0 <= order + 1 ->
  shape (vandermonde xs order) (Z.of_nat (length xs)) (order + 1).
Proof.
  intros H. unfold vandermonde. split; [by rewrite length_map|].
  apply List.Forall_forall. intros row Hrow.
  apply in_map_iff in Hrow as (x & <- & _).
  rewrite length_map, length_seq. lia.
Qed.

Lemma vandermonde_at xs order j i :
  0 <= j < Z.of_nat (length xs) -> 0 <= i < order + 1 ->
  mat_at (vandermonde xs order) j i = (vec_at xs j ^ Z.to_nat i)%R.
Proof.
  intros Hj Hi. unfold mat_at, vandermonde, vec_at.
  destruct (lookup_lt_is_Some_2 xs (Z.to_nat j)) as [x Hx]; [lia|].
  change (map ?f xs) with (f <$> xs).
  rewrite list_lookup_fmap, Hx. cbn [fmap option_fmap option_map default from_option Datatypes.id].
  change (map ?f (seq ?a ?b)) with (f <$> seq a b).
  rewrite list_lookup_fmap, lookup_seq_lt by lia. done.
Qed.

Lemma fresh_matrix_shape (n : nat) c :
  0 <= c -> shape (repeat (repeat uninit (Z.to_nat c)) n) (Z.of_nat n) c.
Proof.
  intros H. split; [by rewrite repeat_length|].
  apply List.Forall_forall. intros row Hrow. apply repeat_spec in Hrow as ->.
  rewrite repeat_length. lia.
Qed.

(** The first loop: the column of ones. *)
Lemma ones_loop A n c :
  shape A n c -> 0 <= n -> 0 < c ->
  exists A',
    for_range 0 n (fun i A => mat_set A i 0 1%R) A = Some A'
    /\ shape A' n c
    /\ forall j, 0 <= j < n -> mat_at A' j 0 = 1%R.
Proof.
  intros Hs Hn Hc.
  destruct (for_range_invariant
    (fun i A' => shape A' n c /\ forall j, 0 <= j < i -> mat_at A' j 0 = 1%R)
    (fun i A => mat_set A i 0 1%R) 0 n A) as (A' & Hrun & Hs' & Hones).
  - done.
  - split; [done|]. intros j Hj. lia.
  - intros i B Hi [HsB HB].
    destruct (mat_set_Some B n c i 0 1%R) as (B' & -> & HsB' & Hat & Hsame);
      [done|lia|lia|].
    exists B'. split; [done|]. split; [done|]. intros j Hj.
    destruct (decide (j = i)) as [->|Hne]; [done|].
    rewrite Hsame by lia. apply HB. lia.
  - exists A'. done.
Qed.

(** The inner loop of the second nest, on row [j]: the powers of [x_j]. *)
Lemma powers_loop (xs : list R) A n c order j :
  n = Z.of_nat (length xs) -> c = order + 1 -> 0 <= order ->
  shape A n c -> 0 <= j < n ->
  mat_at A j 0 = 1%R ->
  exists A',
    for_range 0 order (fun i A =>
        a ← mat_get A j i;
        xj ← vec_get xs j;
        mat_set A j (i + 1) (a * xj)%R) A = Some A'
    /\ shape A' n c
    /\ (forall i, 0 <= i < c -> mat_at A' j i = (vec_at xs j ^ Z.to_nat i)%R)
    /\ (forall j' i, 0 <= j' -> 0 <= i -> j' <> j ->
          mat_at A' j' i = mat_at A j' i).
Proof.
  intros Hn Hc Horder Hs Hj Hone.
  destruct (for_range_invariant
    (fun i A' =>
       shape A' n c
       /\ (forall i', 0 <= i' <= i ->
             mat_at A' j i' = (vec_at xs j ^ Z.to_nat i')%R)
       /\ (forall j' i', 0 <= j' -> 0 <= i' -> j' <> j ->
             mat_at A' j' i' = mat_at A j' i'))
    (fun i A =>
       a ← mat_get A j i;
       xj ← vec_get xs j;
       mat_set A j (i + 1) (a * xj)%R) 0 order A)
    as (A' & Hrun & Hs' & Hpow & Hrest).
  - done.
  - split; [done|]. split; [|done]. intros i' Hi'.
    replace i' with 0 by lia. rewrite Hone. simpl. done.
  - intros i B Hi (HsB & HB & Hrest).
    rewrite (mat_get_Some B n c) by (done || lia).
    rewrite bind_Some, vec_get_Some, bind_Some by lia.
    destruct (mat_set_Some B n c j (i + 1) (mat_at B j i * vec_at xs j)%R)
      as (B' & -> & HsB' & Hat & Hsame); [done|lia|lia|].
    exists B'. split; [done|]. split; [done|]. split.
    + intros i' Hi'. destruct (decide (i' = i + 1)) as [->|Hne].
      * rewrite Hat, HB by lia.
        replace (Z.to_nat (i + 1)) with (S (Z.to_nat i)) by lia.
        simpl. ring.
      * rewrite Hsame by lia. apply HB. lia.
    + intros j' i' Hj' Hi' Hne. rewrite Hsame by lia. by apply Hrest.
  - exists A'. split; [done|]. split; [done|]. split; [|done].
    intros i Hi. apply Hpow. lia.
Qed.

(** The two loops of [polyfit] build the design matrix. *)
Lemma polyfit_matrix_vandermonde (xs : list R) order :
  0 <= order ->
  polyfit_matrix uninit xs order = Some (vandermonde xs order).
Proof.
  intros Horder. unfold polyfit_matrix.
  set (n := Z.of_nat (length xs)). set (c := order + 1).
  destruct (ones_loop (repeat (repeat uninit (Z.to_nat c)) (length xs)) n c)
    as (A1 & -> & Hs1 & Hones); [apply fresh_matrix_shape; lia|lia|lia|].
  rewrite bind_Some.
  destruct (for_range_invariant
    (fun j A =>
       shape A n c
       /\ (forall j' i, 0 <= j' < j -> 0 <= i < c ->
             mat_at A j' i = (vec_at xs j' ^ Z.to_nat i)%R)
       /\ (forall j', j <= j' < n -> mat_at A j' 0 = 1%R))
    (fun j A =>
       for_range 0 order (fun i A =>
         a ← mat_get A j i;
         xj ← vec_get xs j;
         mat_set A j (i + 1) (a * xj)%R) A) 0 n A1)
    as (A2 & -> & Hs2 & Hpow & _).
  - lia.
  - split; [done|]. split; [|intros; apply Hones; lia]. intros; lia.
  - intros j B Hj (HsB & HB & Hfirst).
    destruct (powers_loop xs B n c order j) as (B' & -> & HsB' & Hrow & Hrest);
      [done|done|done|done|done|apply Hfirst; lia|].
    exists B'. split; [done|]. split; [done|]. split.
    + intros j' i Hj' Hi. destruct (decide (j' = j)) as [->|Hne].
      * by apply Hrow.
      * rewrite Hrest by lia. apply HB; lia.
    + intros j' Hj'. rewrite Hrest by lia. apply Hfirst. lia.
  - f_equal. apply (shape_unique_rows A2 (vandermonde xs order) n c);
      [done|apply vandermonde_shape; lia|].
    intros j i Hj Hi. rewrite Hpow, vandermonde_at by (done || lia). done.
Qed.

(** A row of the design matrix times a coefficient vector is the
    polynomial at the point of the row. *)
Lemma dot_powers (x : R) (c : list R) lo :
  dot (map (fun i => x ^ i)%R (seq lo (length c))) c
  = Rsum (fun i => nth (i - lo) c 0 * x ^ i)%R lo (length c).
Proof.
  revert lo. induction c as [|a c IH]; intros lo; [done|].
  cbn [length seq map]. unfold dot in *. cbn [zip_with fold_right Rsum].
  rewrite IH, Nat.sub_diag. cbn [nth].
  rewrite (Rsum_ext (fun i => nth (i - lo) (a :: c) 0 * x ^ i)%R
             (fun i => nth (i - S lo) c 0 * x ^ i)%R).
  - lra.
  - intros k Hk. replace (k - lo)%nat with (S (k - S lo)) by lia. done.
Qed.

Lemma design_error_fit_error (xs ys c : list R) order :
  Z.of_nat (length c) = order + 1 ->
  design_error (vandermonde xs order) ys c = fit_error xs ys c.
Proof.
  intros Hc. unfold design_error, fit_error, vandermonde.
  replace (Z.to_nat (order + 1)) with (length c) by lia.
  revert ys. induction xs as [|x xs IH]; intros ys; [done|].
  destruct ys as [|y ys]; [done|]. cbn [map zip_with fold_right].
  rewrite IH. f_equal. rewrite dot_powers. unfold poly.
  rewrite (Rsum_ext (fun i => nth (i - 0) c 0 * x ^ i)%R
             (fun i => nth i c 0 * x ^ i)%R); [done|].
  intros k _. by rewrite Nat.sub_0_r.
Qed.

End PolyfitFacts.

Lemma design_error_nonneg (A : list (list R)) (ys c : list R) :
  (0 <= design_error A ys c)%R.
Proof.
  unfold design_error. revert ys. induction A as [|row A IH]; intros ys.
  - simpl. lra.
  - destruct ys as [|y ys]; [simpl; lra|]. cbn [zip_with fold_right].
    specialize (IH ys). pose proof (pow2_ge_0 (dot row c - y)). lra.
Qed.

(** C9.  [polyfit] fails exactly when its precondition
    [len(xs) == len(ys) >= order + 1], [order >= 1] is broken, so in
    particular for every call with [order < 1] or with fewer than
    [order + 1] points.  On inputs that satisfy the precondition it builds
    the design matrix whose column [i] is [x^i] and returns what the QR solver
    of Eigen answers for that matrix and [ys]; when that answer is a
    least-squares solution of the linear system, the returned coefficients
    minimise the sum of the squared residuals of the polynomial. *)
Theorem polyfit_fits
    (householderQr_solve : list (list R) -> list R -> list R) (uninit : R)
    (xs ys : list R) (order : Z) :
  (polyfit householderQr_solve uninit xs ys order = None
   <-> ~ (length xs = length ys
          /\ 1 <= order /\ order + 1 <= Z.of_nat (length xs)))
  /\ (length xs = length ys ->
      1 <= order ->
      order + 1 <= Z.of_nat (length xs) ->
      polyfit_matrix uninit xs order = Some (vandermonde xs order)
      /\ polyfit householderQr_solve uninit xs ys order
         = Some (householderQr_solve (vandermonde xs order) ys)
      /\ (Z.of_nat (length (householderQr_solve (vandermonde xs order) ys))
          = order + 1 ->
          least_squares_solution (vandermonde xs order) ys
            (householderQr_solve (vandermonde xs order) ys) ->
          forall c' : list R, Z.of_nat (length c') = order + 1 ->
            (fit_error xs ys (householderQr_solve (vandermonde xs order) ys)
             <= fit_error xs ys c')%R)).
Proof.
  assert (Hpre : length xs = length ys -> 1 <= order ->
                 order + 1 <= Z.of_nat (length xs) ->
                 polyfit householderQr_solve uninit xs ys order
                 = Some (householderQr_solve (vandermonde xs order) ys)).
  { intros Hlen Hord Hpts. unfold polyfit.
    destruct (decide (length xs = length ys)); [|done].
    destruct (decide _) as [_|Hn]; [|lia].
    rewrite polyfit_matrix_vandermonde by lia. done. }
  split.
  - split.
    + intros Hnone (Hlen & Hord & Hpts). rewrite Hpre in Hnone by done.
      discriminate.
    + intros Hbad. unfold polyfit.
      destruct (decide (length xs = length ys)) as [Hlen|]; [|done].
      destruct (decide _) as [[Hord Hpts]|]; [|done].
      exfalso. apply Hbad. repeat split; (done || lia).
  - intros Hlen Hord Hpts.
    split; [apply polyfit_matrix_vandermonde; lia|]. split; [by apply Hpre|].
    intros Hc Hls c' Hc'.
    rewrite <- !(design_error_fit_error xs ys _ order) by done.
    apply Hls. lia.
Qed.

Lemma polyfit_fits_witness :
  polyfit (fun _ _ => [1; 2]%R) 0 [0; 1; 2]%R [1; 3; 5]%R 1 = Some [1; 2]%R
  /\ forall c' : list R, Z.of_nat (length c') = 1 + 1 ->
       (fit_error [0; 1; 2] [1; 3; 5] [1; 2]
        <= fit_error [0; 1; 2] [1; 3; 5] c')%R.
Proof.
  destruct (polyfit_fits (fun _ _ => [1; 2]%R) 0 [0; 1; 2]%R [1; 3; 5]%R 1)
    as [_ Hfit].
  destruct Hfit as (_ & Hrun & Hmin).
  - reflexivity.
  - lia.
  - simpl. lia.
  - split; [exact Hrun|]. apply Hmin.
    + reflexivity.
    + intros c' _.
      apply Rle_trans with 0%R; [|apply design_error_nonneg].
      unfold design_error, dot. simpl. lra.
Defined.

(** ** The degenerate horizon

    With [N = 1] the layout puts [delta_start] at [5], the length of the
    whole array: the extraction of the first steering reads past the end of
    the solver's iterate. *)

Lemma vec_get_None (v : list R) i :
  Z.of_nat (length v) <= i -> vec_get v i = None.
Proof.
  intros H. unfold vec_get. destruct (decide (0 <= i)); [|done].
  apply lookup_ge_None. lia.
Qed.

Lemma Solve_degenerate_horizon (SPEED_UPPERBOUND uninit : R)
    (ipopt_solve : solve_args -> (list R -> list R -> option (list R))
                   -> solve_result)
    (state coeffs : list R) (new_ref_v : R) :
  (forall args fg_eval, length (x (ipopt_solve args fg_eval)) = 5%nat) ->
  MPC.Solve SPEED_UPPERBOUND ipopt_solve uninit
    {| MPC.m_params := degenerate_params; MPC.m_indexes := MPC.layout 1 |}
    state coeffs new_ref_v = None.
Proof.
  intros Hsol. unfold MPC.Solve.
  destruct (MPC.Solve_setup _ _ _ _) as [args|]; [|done].
  rewrite bind_Some. cbv zeta. unfold MPC.Solve_extract.
  cbn [MPC.m_indexes MPC.m_params].
  set (solution := ipopt_solve args _).
  assert (Hd : vec_get (x solution) (delta_start (MPC.layout 1)) = None).
  { apply vec_get_None. unfold solution. rewrite Hsol.
    change (Z.of_nat 5 <= 5). lia. }
  rewrite Hd. reflexivity.
Qed.

(** ** Further properties of the curve fitter *)

Section Horner.

Local Open Scope R_scope.

(** Entered at counter [i] with accumulator [acc], the [polyeval] loop
    adds [x^i] times the value of the remaining coefficients. *)
Lemma polyeval_loop_shift cs i x acc :
  polyeval_loop cs i x acc = acc + x ^ i * polyeval cs x.
Proof.
  unfold polyeval. revert i acc. induction cs as [|c cs IH]; intros i acc.
  - simpl. lra.
  - cbn [polyeval_loop]. rewrite (IH (S i)), (IH 1%nat). simpl. ring.
Qed.

Lemma polyeval_diff_loop_shift cs i x acc :
  (1 <= i)%nat ->
  polyeval_diff_loop cs i x acc
  = acc + x ^ (i - 1) * (INR i * polyeval cs x + x * polyeval_diff cs x).
Proof.
  revert i acc. induction cs as [|c cs IH]; intros i acc Hi.
  - unfold polyeval, polyeval_diff. simpl. ring.
  - cbn [polyeval_diff_loop]. rewrite (IH (S i)) by lia.
    unfold polyeval_diff at 2. cbn [tail]. rewrite (IH 1%nat) by lia.
    unfold polyeval at 2. cbn [polyeval_loop].
    rewrite (polyeval_loop_shift cs 1).
    replace (S i - 1)%nat with (S (i - 1)) by lia.
    rewrite S_INR. simpl. ring.
Qed.

End Horner.

(** X1.  [polyeval] obeys Horner's recurrence and [polyeval_diff] the
    recurrence of the derivative: with a leading coefficient [c] put in
    front, the value is [c + x * p(x)] and the slope is [p(x) + x * p'(x)];
    an empty coefficient vector evaluates to [0]. *)
Theorem polyeval_horner (c : R) (cs : list R) (x : R) :
  polyeval [] x = 0%R
  /\ polyeval (c :: cs) x = (c + x * polyeval cs x)%R
  /\ polyeval_diff (c :: cs) x = (polyeval cs x + x * polyeval_diff cs x)%R.
Proof.
  split; [reflexivity|]. split.
  - unfold polyeval at 1. cbn [polyeval_loop].
    rewrite polyeval_loop_shift. simpl. ring.
  - unfold polyeval_diff at 1. cbn [tail].
    rewrite polyeval_diff_loop_shift by lia. simpl. ring.
Qed.

(** X2.  The rows of the matrix that [polyfit] builds and [polyeval] use
    the same order of coefficients, lowest degree first: the matrix has one
    row per point, and the product of row [j] with a coefficient vector of
    [order + 1] entries is [polyeval] of that vector at [x_j]. *)
Theorem polyfit_rows_evaluate (uninit : R) (xs : list R) (order : Z)
    (A : list (list R)) (c : list R) (j : nat) (row : list R) (xj : R) :
  0 <= order ->
  polyfit_matrix uninit xs order = Some A ->
  Z.of_nat (length c) = order + 1 ->
  A !! j = Some row ->
  xs !! j = Some xj ->
  length A = length xs /\ dot row c = polyeval c xj.
Proof.
  intros Horder HA Hc Hrow Hxj.
  rewrite polyfit_matrix_vandermonde in HA by done. injection HA as <-.
  unfold vandermonde in *. split; [by rewrite length_map|].
  change (map ?f xs) with (f <$> xs) in Hrow.
  rewrite list_lookup_fmap, Hxj in Hrow. injection Hrow as <-.
  replace (Z.to_nat (order + 1)) with (length c) by lia.
  rewrite dot_powers, polyeval_poly. unfold poly.
  apply Rsum_ext. intros k _. by rewrite Nat.sub_0_r.
Qed.

Lemma polyfit_rows_evaluate_witness :
  exists A row,
    polyfit_matrix 0 [0; 1; 2]%R 1 = Some A
    /\ A !! 2%nat = Some row
    /\ dot row [1; 2]%R = polyeval [1; 2]%R 2.
Proof.
  assert (Hord : 0 <= 1) by lia.
  assert (HA : polyfit_matrix 0 [0; 1; 2]%R 1
               = Some (vandermonde [0; 1; 2]%R 1))
    by (apply polyfit_matrix_vandermonde; lia).
  assert (Hc : Z.of_nat (length [1; 2]%R) = 1 + 1) by reflexivity.
  assert (Hrow : vandermonde [0; 1; 2]%R 1 !! 2%nat
                 = Some [2 ^ 0; 2 ^ 1]%R) by reflexivity.
  assert (Hx : [0; 1; 2]%R !! 2%nat = Some 2%R) by reflexivity.
  exists (vandermonde [0; 1; 2]%R 1), [2 ^ 0; 2 ^ 1]%R.
  split; [exact HA|]. split; [exact Hrow|].
  exact (proj2 (polyfit_rows_evaluate 0 [0; 1; 2]%R 1 _ [1; 2]%R 2 _ 2%R
                  Hord HA Hc Hrow Hx)).
Defined.

(** ** Further properties of the solver driver *)

Lemma vec_ext (a b : list R) :
  length a = length b ->
  (forall j, 0 <= j < Z.of_nat (length a) -> vec_at a j = vec_at b j) ->
  a = b.
Proof.
  intros Hlen H. apply (list_eq_same_length a b (length a)); [done|done|].
  intros i u v Hi Hu Hv. specialize (H (Z.of_nat i)). unfold vec_at in H.
  rewrite Nat2Z.id, Hu, Hv in H. apply H. lia.
Qed.

Lemma vec_at_repeat (a : R) n j :
  0 <= j < Z.of_nat n -> vec_at (repeat a n) j = a.
Proof.
  intros H. unfold vec_at.
  destruct (lookup_lt_is_Some_2 (repeat a n) (Z.to_nat j)) as [b Hb];
    [rewrite repeat_length; lia|].
  rewrite Hb. apply list_elem_of_lookup_2, list_elem_of_In, repeat_spec in Hb.
  by subst.
Qed.

Section SetupDetermined.

Variable SPEED_UPPERBOUND : R.
Variable m : MPC.t.

Let N := steps_ahead (MPC.m_params m).
Let ix := MPC.m_indexes m.

Hypothesis horizon : 1 <= N.
Hypothesis fits : SizeT.in_range (5 * N + 2 * (N - 1)).
Hypothesis constructed : ix = MPC.layout N.

Lemma initial_vars_repeat uninit :
  MPC.initial_vars uninit m
  = Some (repeat 0%R (Z.to_nat (5 * N + 2 * (N - 1)))).
Proof.
  destruct (initial_vars_zero uninit m horizon fits) as (vars & -> & Hl & Hz).
  unfold N in *. f_equal. apply vec_ext.
  - rewrite repeat_length. lia.
  - intros j Hj. rewrite Hz, vec_at_repeat by lia. done.
Qed.

Lemma variable_bounds_determined u u' lo up lo' up' :
  MPC.variable_bounds SPEED_UPPERBOUND u m = Some (lo, up) ->
  MPC.variable_bounds SPEED_UPPERBOUND u' m = Some (lo', up') ->
  lo = lo' /\ up = up'.
Proof.
  intros H H'.
  destruct (variable_bounds_regions SPEED_UPPERBOUND u m horizon fits
              constructed) as (l & v & Hlv & Hl & Hv & H1 & H2 & H3).
  destruct (variable_bounds_regions SPEED_UPPERBOUND u' m horizon fits
              constructed) as (l' & v' & Hlv' & Hl' & Hv' & H1' & H2' & H3').
  unfold N in *. rewrite H in Hlv. rewrite H' in Hlv'.
  injection Hlv as <- <-. injection Hlv' as <- <-.
  split; apply vec_ext; try lia; intros j Hj.
  - destruct (Z_lt_ge_dec j (5 * N)); [|destruct (Z_lt_ge_dec j (6 * N - 1))].
    + destruct (H1 j), (H1' j); (lia || congruence).
    + destruct (H2 j), (H2' j); (lia || congruence).
    + destruct (H3 j), (H3' j); (lia || congruence).
  - destruct (Z_lt_ge_dec j (5 * N)); [|destruct (Z_lt_ge_dec j (6 * N - 1))].
    + destruct (H1 j), (H1' j); (lia || congruence).
    + destruct (H2 j), (H2' j); (lia || congruence).
    + destruct (H3 j), (H3' j); (lia || congruence).
Qed.

Lemma constraint_bounds_determined u u' (x y psi cte epsi : R) lo up lo' up' :
  MPC.constraint_bounds u m x y psi cte epsi = Some (lo, up) ->
  MPC.constraint_bounds u' m x y psi cte epsi = Some (lo', up') ->
  lo = lo' /\ up = up' /\ lo = up.
Proof.
  intros H H'.
  destruct (constraint_bounds_pinned u m horizon fits constructed
              x y psi cte epsi)
    as (l & v & Hlv & Hl & Hv & Hx & Hy & Hpsi & Hcte & Hepsi & Hz).
  destruct (constraint_bounds_pinned u' m horizon fits constructed
              x y psi cte epsi)
    as (l' & v' & Hlv' & Hl' & Hv' & Hx' & Hy' & Hpsi' & Hcte' & Hepsi' & Hz').
  unfold N, ix in *. rewrite H in Hlv. rewrite H' in Hlv'.
  injection Hlv as <- <-. injection Hlv' as <- <-.
  assert (Hall : forall j, 0 <= j < 5 * N ->
            vec_at lo j = vec_at lo' j /\ vec_at up j = vec_at up' j
            /\ vec_at lo j = vec_at up j).
  { intros j Hj.
    destruct (decide (j = x_start (MPC.m_indexes m))) as [->|];
      [intuition congruence|].
    destruct (decide (j = y_start (MPC.m_indexes m))) as [->|];
      [intuition congruence|].
    destruct (decide (j = psi_start (MPC.m_indexes m))) as [->|];
      [intuition congruence|].
    destruct (decide (j = cte_start (MPC.m_indexes m))) as [->|];
      [intuition congruence|].
    destruct (decide (j = epsi_start (MPC.m_indexes m))) as [->|];
      [intuition congruence|].
    destruct (Hz j), (Hz' j); try done. intuition congruence. }
  repeat split; apply vec_ext; try lia; intros j Hj; apply Hall; lia.
Qed.

End SetupDetermined.

Section SetupWhole.

Variable SPEED_UPPERBOUND : R.
Variable m : MPC.t.

Hypothesis horizon : 1 <= steps_ahead (MPC.m_params m).
Hypothesis fits :
  SizeT.in_range (5 * steps_ahead (MPC.m_params m)
                  + 2 * (steps_ahead (MPC.m_params m) - 1)).
Hypothesis constructed :
  MPC.m_indexes m = MPC.layout (steps_ahead (MPC.m_params m)).

Lemma Solve_setup_allocation u u' (state : list R) :
  MPC.Solve_setup SPEED_UPPERBOUND u m state
  = MPC.Solve_setup SPEED_UPPERBOUND u' m state.
Proof.
  unfold MPC.Solve_setup.
  rewrite (initial_vars_repeat m horizon fits u),
    (initial_vars_repeat m horizon fits u').
  destruct (variable_bounds_regions SPEED_UPPERBOUND u m horizon fits
              constructed) as (lo & up & Hvb & _).
  destruct (variable_bounds_regions SPEED_UPPERBOUND u' m horizon fits
              constructed) as (lo' & up' & Hvb' & _).
  destruct (variable_bounds_determined SPEED_UPPERBOUND m horizon fits
              constructed u u' lo up lo' up' Hvb Hvb') as [<- <-].
  rewrite Hvb, Hvb'.
  destruct (vec_get state 0) as [x|]; [|done].
  destruct (vec_get state 1) as [y|]; [|done].
  destruct (vec_get state 2) as [psi|]; [|done].
  destruct (vec_get state 3) as [cte|]; [|done].
  destruct (vec_get state 4) as [epsi|]; [|done].
  rewrite !bind_Some. cbv beta iota.
  destruct (constraint_bounds_pinned u m horizon fits constructed
              x y psi cte epsi) as (glo & gup & Hcb & _).
  destruct (constraint_bounds_pinned u' m horizon fits constructed
              x y psi cte epsi) as (glo' & gup' & Hcb' & _).
  destruct (constraint_bounds_determined m horizon fits constructed u u'
              x y psi cte epsi glo gup glo' gup' Hcb Hcb') as (<- & <- & _).
  rewrite Hcb, Hcb'. done.
Qed.

End SetupWhole.

(** X3.  Every entry of the five arrays that [Solve] hands to the solver is
    written before the call: the arguments built, and with them the whole of
    [Solve], do not depend on what the freshly allocated arrays held. *)
Theorem Solve_ignores_allocation (SPEED_UPPERBOUND u u' : R)
    (ipopt_solve : solve_args -> (list R -> list R -> option (list R))
                   -> solve_result)
    (p : Params) (m : MPC.t) (state coeffs : list R) (new_ref_v : R) :
  1 <= steps_ahead p ->
  SizeT.in_range (5 * steps_ahead p + 2 * (steps_ahead p - 1)) ->
  MPC.new SPEED_UPPERBOUND p = Some m ->
  MPC.Solve_setup SPEED_UPPERBOUND u m state
  = MPC.Solve_setup SPEED_UPPERBOUND u' m state
  /\ MPC.Solve SPEED_UPPERBOUND ipopt_solve u m state coeffs new_ref_v
     = MPC.Solve SPEED_UPPERBOUND ipopt_solve u' m state coeffs new_ref_v.
Proof.
  intros HN Hfit Hnew. apply new_Some in Hnew as [-> _].
  assert (Hs : forall st,
            MPC.Solve_setup SPEED_UPPERBOUND u
              {| MPC.m_params := p; MPC.m_indexes := MPC.layout (steps_ahead p) |}
              st
            = MPC.Solve_setup SPEED_UPPERBOUND u'
                {| MPC.m_params := p;
                   MPC.m_indexes := MPC.layout (steps_ahead p) |} st).
  { intros st. by apply Solve_setup_allocation. }
  split; [apply Hs|]. unfold MPC.Solve. by rewrite Hs.
Qed.

Lemma Solve_ignores_allocation_witness :
  MPC.Solve 2 (fun _ _ => answer_converged) 0 small_mpc
    [0; 0; 0; 1; 0.1]%R [1; 2]%R 1
  = MPC.Solve 2 (fun _ _ => answer_converged) 7 small_mpc
      [0; 0; 0; 1; 0.1]%R [1; 2]%R 1.
Proof.
  assert (H1 : 1 <= steps_ahead small_params) by (simpl; lia).
  assert (Hfit : SizeT.in_range (5 * steps_ahead small_params
                                 + 2 * (steps_ahead small_params - 1)))
    by (unfold SizeT.in_range; rewrite max_value; simpl; lia).
  assert (Hnew : MPC.new 2 small_params = Some small_mpc)
    by (apply (new_accepts 2 small_params); simpl; lra).
  exact (proj2 (Solve_ignores_allocation 2 0 7 (fun _ _ => answer_converged)
                  small_params small_mpc [0; 0; 0; 1; 0.1]%R [1; 2]%R 1
                  H1 Hfit Hnew)).
Defined.

(** X4.  The start value that [Solve] hands to the solver is zero in every
    one of the [n_vars] decision variables, the entries of the initial state
    included; when the maximal speed is not negative this start value lies
    within the bounds of the variables. *)
Theorem initial_guess_zero (SPEED_UPPERBOUND uninit : R) (p : Params)
    (m : MPC.t) (state : list R) :
  1 <= steps_ahead p ->
  SizeT.in_range (5 * steps_ahead p + 2 * (steps_ahead p - 1)) ->
  MPC.new SPEED_UPPERBOUND p = Some m ->
  (5 <= length state)%nat ->
  exists args,
    MPC.Solve_setup SPEED_UPPERBOUND uninit m state = Some args
    /\ xi args = repeat 0%R (Z.to_nat (MPC.n_vars m))
    /\ ((0 <= SPEED_UPPERBOUND)%R ->
        forall i, 0 <= i < MPC.n_vars m ->
          (vec_at (xl args) i <= vec_at (xi args) i <= vec_at (xu args) i)%R).
Proof.
  intros HN Hfit Hnew Hstate. apply new_Some in Hnew as [-> _].
  set (m := {| MPC.m_params := p; MPC.m_indexes := MPC.layout (steps_ahead p) |}).
  assert (Hix : MPC.m_indexes m = MPC.layout (steps_ahead (MPC.m_params m)))
    by reflexivity.
  change (steps_ahead p) with (steps_ahead (MPC.m_params m)) in HN, Hfit.
  destruct (Solve_setup_builds SPEED_UPPERBOUND uninit m HN Hfit Hix state Hstate)
    as (vars & lo & up & glo & gup & -> & Hiv & Hvb & _).
  rewrite (initial_vars_repeat m HN Hfit uninit) in Hiv. injection Hiv as <-.
  destruct (variable_bounds_regions SPEED_UPPERBOUND uninit m HN Hfit Hix)
    as (lo' & up' & Hvb' & _ & _ & H1 & H2 & H3).
  rewrite Hvb in Hvb'. injection Hvb' as <- <-.
  destruct (n_vars_exact m HN Hfit) as [-> _].
  eexists. split; [reflexivity|]. cbn [xi xl xu]. split; [done|].
  change (steps_ahead p) with (steps_ahead (MPC.m_params m)).
  intros Hspeed i Hi. rewrite vec_at_repeat by lia.
  destruct (Z_lt_ge_dec i (5 * steps_ahead (MPC.m_params m)));
    [|destruct (Z_lt_ge_dec i (6 * steps_ahead (MPC.m_params m) - 1))].
  - destruct (H1 i) as [-> ->]; [lia|]. lra.
  - destruct (H2 i) as [-> ->]; [lia|].
    unfold max_steering_angle, delta_constraint. lra.
  - destruct (H3 i) as [-> ->]; [lia|]. lra.
Qed.

Lemma initial_guess_zero_witness :
  exists args,
    MPC.Solve_setup 2 0 small_mpc [0; 0; 0; 1; 0.1]%R = Some args
    /\ xi args = repeat 0%R 19.
Proof.
  assert (H1 : 1 <= steps_ahead small_params) by (simpl; lia).
  assert (Hfit : SizeT.in_range (5 * steps_ahead small_params
                                 + 2 * (steps_ahead small_params - 1)))
    by (unfold SizeT.in_range; rewrite max_value; simpl; lia).
  assert (Hnew : MPC.new 2 small_params = Some small_mpc)
    by (apply (new_accepts 2 small_params); simpl; lra).
  assert (Hst : (5 <= length [0; 0; 0; 1; 0.1]%R)%nat) by (simpl; lia).
  destruct (initial_guess_zero 2 0 small_params small_mpc [0; 0; 0; 1; 0.1]%R
              H1 Hfit Hnew Hst) as (args & Hrun & Hzero & _).
  exists args. split; [exact Hrun|exact Hzero].
Defined.

(** X5.  Every constraint that [Solve] hands to the solver is an equality:
    the array of lower bounds and the array of upper bounds of the
    constraints are the same array. *)
Theorem constraints_are_equalities (SPEED_UPPERBOUND uninit : R) (p : Params)
    (m : MPC.t) (state : list R) :
  1 <= steps_ahead p ->
  SizeT.in_range (5 * steps_ahead p + 2 * (steps_ahead p - 1)) ->
  MPC.new SPEED_UPPERBOUND p = Some m ->
  (5 <= length state)%nat ->
  exists args,
    MPC.Solve_setup SPEED_UPPERBOUND uninit m state = Some args
    /\ gl args = gu args.
Proof.
  intros HN Hfit Hnew Hstate. apply new_Some in Hnew as [-> _].
  set (m := {| MPC.m_params := p; MPC.m_indexes := MPC.layout (steps_ahead p) |}).
  assert (Hix : MPC.m_indexes m = MPC.layout (steps_ahead (MPC.m_params m)))
    by reflexivity.
  change (steps_ahead p) with (steps_ahead (MPC.m_params m)) in HN, Hfit.
  destruct (Solve_setup_builds SPEED_UPPERBOUND uninit m HN Hfit Hix state Hstate)
    as (vars & lo & up & glo & gup & -> & _ & _ & Hcb).
  eexists. split; [reflexivity|]. cbn [gl gu].
  by destruct (constraint_bounds_determined m HN Hfit Hix uninit uninit
                 _ _ _ _ _ glo gup glo gup Hcb Hcb) as (_ & _ & ?).
Qed.

Lemma constraints_are_equalities_witness :
  exists args,
    MPC.Solve_setup 2 0 small_mpc [0; 0; 0; 1; 0.1]%R = Some args
    /\ gl args = gu args.
Proof.
  assert (H1 : 1 <= steps_ahead small_params) by (simpl; lia).
  assert (Hfit : SizeT.in_range (5 * steps_ahead small_params
                                 + 2 * (steps_ahead small_params - 1)))
    by (unfold SizeT.in_range; rewrite max_value; simpl; lia).
  assert (Hnew : MPC.new 2 small_params = Some small_mpc)
    by (apply (new_accepts 2 small_params); simpl; lra).
  assert (Hst : (5 <= length [0; 0; 0; 1; 0.1]%R)%nat) by (simpl; lia).
  exact (constraints_are_equalities 2 0 small_params small_mpc
           [0; 0; 0; 1; 0.1]%R H1 Hfit Hnew Hst).
Defined.

(** ** Inputs outside the domain *)

Lemma for_range_fails_first {St : Type} body lo hi (s : St) :
  lo < hi -> body lo s = None -> for_range lo hi body s = None.
Proof.
  intros Hlt Hb. unfold for_range.
  destruct (Z.to_nat (hi - lo)) as [|n] eqn:Hn; [lia|].
  simpl. rewrite Hb. done.
Qed.

(** X6.  [Solve] reads [state[0]] to [state[4]] before anything else: on a
    state of fewer than five entries it reads outside the vector and yields
    no result, whatever the solver would answer. *)
Theorem Solve_short_state (SPEED_UPPERBOUND uninit : R)
    (ipopt_solve : solve_args -> (list R -> list R -> option (list R))
                   -> solve_result)
    (m : MPC.t) (state coeffs : list R) (new_ref_v : R) :
  (length state < 5)%nat ->
  MPC.Solve SPEED_UPPERBOUND ipopt_solve uninit m state coeffs new_ref_v = None.
Proof.
  intros Hlen. unfold MPC.Solve, MPC.Solve_setup.
  destruct (vec_get state 0) as [x0|] eqn:H0; [|done].
  destruct (vec_get state 1) as [x1|] eqn:H1; [|done].
  destruct (vec_get state 2) as [x2|] eqn:H2; [|done].
  destruct (vec_get state 3) as [x3|] eqn:H3; [|done].
  destruct (vec_get state 4) as [x4|] eqn:H4; [|done].
  apply vec_get_inv in H4 as [H4 _]. lia.
Qed.

Lemma Solve_short_state_witness :
  MPC.Solve 2 (fun _ _ => answer_converged) 0 small_mpc
    [0; 0; 0; 1]%R [1; 2]%R 1 = None.
Proof.
  apply (Solve_short_state 2 0 (fun _ _ => answer_converged) small_mpc
           [0; 0; 0; 1]%R [1; 2]%R 1).
  simpl. lia.
Defined.

(** X7.  A horizon below two steps leaves [Solve] without a result.  With
    [N = 0] there is no constraint, and the store of the first initial-state
    bound falls outside the empty array; with [N = 1] the first steering,
    [solution.x[delta_start]], lies one past the end of an iterate of
    [n_vars] entries. *)
Theorem Solve_needs_two_steps (SPEED_UPPERBOUND uninit : R)
    (ipopt_solve : solve_args -> (list R -> list R -> option (list R))
                   -> solve_result)
    (m : MPC.t) (state coeffs : list R) (new_ref_v : R) :
  0 <= steps_ahead (MPC.m_params m) < 2 ->
  MPC.m_indexes m = MPC.layout (steps_ahead (MPC.m_params m)) ->
  (forall args fg_eval,
     Z.of_nat (length (x (ipopt_solve args fg_eval))) = MPC.n_vars m) ->
  MPC.Solve SPEED_UPPERBOUND ipopt_solve uninit m state coeffs new_ref_v = None.
Proof.
  intros HN Hix Hsol.
  assert (steps_ahead (MPC.m_params m) = 0 \/ steps_ahead (MPC.m_params m) = 1)
    as [H0|H1] by lia.
  - assert (Hcb : forall a b c d e,
              MPC.constraint_bounds uninit m a b c d e = None).
    { intros. unfold MPC.constraint_bounds, MPC.n_constraints.
      rewrite Hix, H0. reflexivity. }
    unfold MPC.Solve, MPC.Solve_setup.
    destruct (vec_get state 0) as [x0|]; [|done].
    destruct (vec_get state 1) as [x1|]; [|done].
    destruct (vec_get state 2) as [x2|]; [|done].
    destruct (vec_get state 3) as [x3|]; [|done].
    destruct (vec_get state 4) as [x4|]; [|done].
    rewrite !bind_Some.
    destruct (MPC.initial_vars uninit m) as [vars|]; [|done].
    rewrite bind_Some.
    destruct (MPC.variable_bounds SPEED_UPPERBOUND uninit m) as [[lo up]|];
      [|done].
    rewrite bind_Some. cbv beta iota. rewrite Hcb. done.
  - unfold MPC.Solve.
    destruct (MPC.Solve_setup SPEED_UPPERBOUND uninit m state) as [args|];
      [|done].
    rewrite bind_Some. cbv zeta. unfold MPC.Solve_extract.
    set (solution := ipopt_solve args _).
    assert (Hd : vec_get (x solution) (delta_start (MPC.m_indexes m)) = None).
    { apply vec_get_None. unfold solution. rewrite Hsol.
      unfold MPC.n_vars. rewrite Hix, H1. vm_compute. discriminate. }
    rewrite Hd. reflexivity.
Qed.

Lemma Solve_needs_two_steps_witness :
  MPC.Solve 2
    (fun _ _ => {| status := success; x := repeat 0%R 5; obj_value := 0%R |})
    0 {| MPC.m_params := degenerate_params; MPC.m_indexes := MPC.layout 1 |}
    [0; 0; 0; 1; 0.1]%R [1; 2]%R 1 = None.
Proof.
  apply (Solve_needs_two_steps 2 0
           (fun _ _ => {| status := success; x := repeat 0%R 5;
                          obj_value := 0%R |})
           {| MPC.m_params := degenerate_params; MPC.m_indexes := MPC.layout 1 |}
           [0; 0; 0; 1; 0.1]%R [1; 2]%R 1).
  - simpl. lia.
  - reflexivity.
  - intros args fg_eval. reflexivity.
Defined.

(** X8.  With a horizon below two steps [operator()] runs off the array of
    decision variables of the length [Solve] computes: a loop bound [N - 1]
    or [N - 2] wraps around to the top of [size_t], and the first iteration
    of that loop reads past the end of [vars]. *)
Theorem formulator_needs_two_steps (self : FG_eval.t) (fg vars : list R) :
  0 <= steps_ahead (FG_eval.m_params self) < 2 ->
  FG_eval.m_indexes self = MPC.layout (steps_ahead (FG_eval.m_params self)) ->
  Z.of_nat (length vars)
    = SizeT.wrap (5 * steps_ahead (FG_eval.m_params self)
                  + 2 * (steps_ahead (FG_eval.m_params self) - 1)) ->
  FG_eval.call self fg vars = None.
Proof.
  intros HN Hix Hlen. unfold FG_eval.call.
  destruct (vec_set fg 0 0) as [fg0|]; [|done]. rewrite bind_Some.
  destruct (for_range 0 _ (FG_eval.cost_reference self vars) fg0) as [fg1|];
    [|done]. rewrite bind_Some.
  assert (steps_ahead (FG_eval.m_params self) = 0
          \/ steps_ahead (FG_eval.m_params self) = 1) as [H0|H1] by lia.
  - rewrite H0 in Hlen |- *.
    rewrite for_range_fails_first; [done|reflexivity|].
    unfold FG_eval.cost_actuators. rewrite Hix, H0.
    rewrite (vec_get_None vars (v_start (MPC.layout 0) +w 0)); [reflexivity|].
    rewrite Hlen. vm_compute. discriminate.
  - rewrite H1 in Hlen |- *.
    destruct (for_range 0 _ (FG_eval.cost_actuators self vars) fg1) as [fg2|];
      [|done]. rewrite bind_Some.
    rewrite for_range_fails_first; [done|reflexivity|].
    unfold FG_eval.cost_gaps. rewrite Hix, H1.
    rewrite (vec_get_None vars (delta_start (MPC.layout 1) +w 0 +w 1));
      [reflexivity|].
    rewrite Hlen. vm_compute. discriminate.
Qed.

Lemma formulator_needs_two_steps_witness :
  FG_eval.call (FG_eval.new [1; 2]%R degenerate_params (MPC.layout 1) 1%R)
    (repeat 0%R 6) (repeat 0%R 5) = None.
Proof.
  apply (formulator_needs_two_steps
           (FG_eval.new [1; 2]%R degenerate_params (MPC.layout 1) 1%R)
           (repeat 0%R 6) (repeat 0%R 5)).
  - simpl. lia.
  - reflexivity.
  - reflexivity.
Defined.

(** ** Further properties of the formulator *)

Lemma constraint_index_split N j :
  1 <= N -> 1 <= j < 1 + 5 * N ->
  exists k t, 0 <= k < 5 /\ 0 <= t < N /\ j = 1 + k * N + t.
Proof.
  intros HN Hj. exists ((j - 1) / N), ((j - 1) mod N).
  pose proof (Z.div_mod (j - 1) N ltac:(lia)) as Hdm.
  pose proof (Z.mod_pos_bound (j - 1) N ltac:(lia)) as Hmod.
  assert (0 <= (j - 1) / N) by (apply Z.div_pos; lia).
  assert ((j - 1) / N < 5) by (apply Z.div_lt_upper_bound; lia).
  repeat split; try lia.
Qed.

Lemma Rsum_zero f lo n :
  (forall k, (lo <= k < lo + n)%nat -> f k = 0%R) -> Rsum f lo n = 0%R.
Proof.
  revert lo. induction n as [|n IH]; intros lo H; simpl; [done|].
  rewrite (H lo), IH by (try intros; try apply H; lia). lra.
Qed.

Lemma Rsum_nonneg f lo n :
  (forall k, (lo <= k < lo + n)%nat -> (0 <= f k)%R) -> (0 <= Rsum f lo n)%R.
Proof.
  revert lo. induction n as [|n IH]; intros lo H; simpl; [lra|].
  pose proof (H lo ltac:(lia)). pose proof (IH (S lo)) as H'.
  assert (0 <= Rsum f (S lo) n)%R by (apply H'; intros; apply H; lia). lra.
Qed.

Lemma Zsum_zero f n :
  (forall t, 0 <= t < n -> f t = 0%R) -> Zsum f n = 0%R.
Proof. intros H. apply Rsum_zero. intros k Hk. apply H. lia. Qed.

Lemma Zsum_nonneg f n :
  (forall t, 0 <= t < n -> (0 <= f t)%R) -> (0 <= Zsum f n)%R.
Proof. intros H. apply Rsum_nonneg. intros k Hk. apply H. lia. Qed.

Lemma polyeval_at_zero coeffs : polyeval coeffs 0 = nth 0 coeffs 0%R.
Proof.
  destruct coeffs as [|c cs]; [done|]. unfold polyeval. cbn [polyeval_loop].
  rewrite polyeval_loop_shift. simpl. ring.
Qed.

Lemma polyeval_diff_at_zero coeffs : polyeval_diff coeffs 0 = nth 1 coeffs 0%R.
Proof.
  destruct coeffs as [|c cs]; [done|]. unfold polyeval_diff. cbn [tail nth].
  rewrite polyeval_diff_loop_shift by lia. rewrite polyeval_at_zero.
  simpl. ring.
Qed.

Section FormulatorMore.

Local Open Scope R_scope.

Variable self : FG_eval.t.
Variable vars : list R.

Hypothesis horizon : (2 <= steps_ahead (FG_eval.m_params self))%Z.
Hypothesis fits :
  SizeT.in_range (5 * steps_ahead (FG_eval.m_params self)
                  + 2 * (steps_ahead (FG_eval.m_params self) - 1)).
Hypothesis constructed :
  FG_eval.m_indexes self = MPC.layout (steps_ahead (FG_eval.m_params self)).
Hypothesis vars_length :
  Z.of_nat (length vars)
  = (5 * steps_ahead (FG_eval.m_params self)
     + 2 * (steps_ahead (FG_eval.m_params self) - 1))%Z.

(** The cost and the residuals fix every entry of [fg]. *)
Lemma residuals_fix_fg (g g' : list R) :
  Z.of_nat (length g) = (1 + 5 * steps_ahead (FG_eval.m_params self))%Z ->
  length g' = length g ->
  vec_at g 0 = vec_at g' 0 ->
  initial_residuals self vars g -> initial_residuals self vars g' ->
  (forall t, (1 <= t < steps_ahead (FG_eval.m_params self))%Z ->
     dynamics_residuals self vars g t) ->
  (forall t, (1 <= t < steps_ahead (FG_eval.m_params self))%Z ->
     dynamics_residuals self vars g' t) ->
  g = g'.
Proof.
  intros Hl Hl' H0 Hi Hi' Hd Hd'. apply vec_ext; [done|]. intros j Hj.
  destruct (decide (j = 0%Z)) as [->|Hne]; [done|].
  destruct (constraint_index_split (steps_ahead (FG_eval.m_params self)) j)
    as (k & t & Hk & Ht & ->); [lia|lia|].
  unfold initial_residuals, dynamics_residuals in *.
  rewrite constructed, layout_exact in * by (lia || done).
  cbn [x_start y_start psi_start cte_start epsi_start delta_start v_start] in *.
  set (N := steps_ahead (FG_eval.m_params self)) in *.
  destruct (decide (t = 0%Z)) as [->|Htne].
  - destruct Hi as (A0 & A1 & A2 & A3 & A4).
    destruct Hi' as (B0 & B1 & B2 & B3 & B4).
    assert (k = 0 \/ k = 1 \/ k = 2 \/ k = 3 \/ k = 4)%Z
      as [-> | [-> | [-> | [-> | ->]]]] by lia.
    + replace (1 + 0 * N + 0)%Z with (1 + 0)%Z by lia. congruence.
    + replace (1 + 1 * N + 0)%Z with (1 + N)%Z by lia. congruence.
    + replace (1 + 2 * N + 0)%Z with (1 + 2 * N)%Z by lia. congruence.
    + replace (1 + 3 * N + 0)%Z with (1 + 3 * N)%Z by lia. congruence.
    + replace (1 + 4 * N + 0)%Z with (1 + 4 * N)%Z by lia. congruence.
  - destruct (Hd t) as (A0 & A1 & A2 & A3 & A4); [lia|].
    destruct (Hd' t) as (B0 & B1 & B2 & B3 & B4); [lia|].
    assert (k = 0 \/ k = 1 \/ k = 2 \/ k = 3 \/ k = 4)%Z
      as [-> | [-> | [-> | [-> | ->]]]] by lia.
    + replace (1 + 0 * N + t)%Z with (1 + 0 + t)%Z by lia. congruence.
    + replace (1 + 1 * N + t)%Z with (1 + N + t)%Z by lia. congruence.
    + congruence.
    + congruence.
    + congruence.
Qed.

Lemma call_same_for_any_fg (fg fg' : list R) :
  Z.of_nat (length fg) = (1 + 5 * steps_ahead (FG_eval.m_params self))%Z ->
  length fg' = length fg ->
  FG_eval.call self fg vars = FG_eval.call self fg' vars.
Proof.
  intros Hl Hl'.
  destruct (call_computes self vars horizon fits constructed vars_length fg Hl)
    as (g & -> & Hg & Hc & Hi & Hd).
  destruct (call_computes self vars horizon fits constructed vars_length fg')
    as (g' & -> & Hg' & Hc' & Hi' & Hd'); [lia|].
  f_equal. apply residuals_fix_fg; try done; try lia. congruence.
Qed.

Lemma cost_nonneg :
  0 <= cte_coeff (FG_eval.m_params self) ->
  0 <= epsi_coeff (FG_eval.m_params self) ->
  0 <= speed_coeff (FG_eval.m_params self) ->
  0 <= steer_coeff (FG_eval.m_params self) ->
  0 <= consec_steer_coeff (FG_eval.m_params self) ->
  0 <= consec_speed_coeff (FG_eval.m_params self) ->
  0 <= cost self vars.
Proof.
  intros H1 H2 H3 H4 H5 H6. unfold cost.
  assert (Hsq : forall a b c d : R, 0 <= a -> 0 <= c -> 0 <= a * b ^ 2 + c * d ^ 2).
  { intros a b c d Ha Hc. pose proof (pow2_ge_0 b). pose proof (pow2_ge_0 d).
    nra. }
  repeat apply Rplus_le_le_0_compat; apply Zsum_nonneg; intros t _;
    by apply Hsq.
Qed.

End FormulatorMore.

Section ZeroTrajectory.

Local Open Scope R_scope.

Variable self : FG_eval.t.

Hypothesis horizon : (2 <= steps_ahead (FG_eval.m_params self))%Z.
Hypothesis fits :
  SizeT.in_range (5 * steps_ahead (FG_eval.m_params self)
                  + 2 * (steps_ahead (FG_eval.m_params self) - 1)).
Hypothesis constructed :
  FG_eval.m_indexes self = MPC.layout (steps_ahead (FG_eval.m_params self)).
Hypothesis target_zero : FG_eval.m_ref_v self = 0.
Hypothesis through_origin : nth 0 (FG_eval.m_coeffs self) 0 = 0.
Hypothesis flat_at_origin : nth 1 (FG_eval.m_coeffs self) 0 = 0.

Lemma call_on_zero (fg : list R) :
  Z.of_nat (length fg) = (1 + 5 * steps_ahead (FG_eval.m_params self))%Z ->
  FG_eval.call self fg
    (repeat 0 (Z.to_nat (5 * steps_ahead (FG_eval.m_params self)
                         + 2 * (steps_ahead (FG_eval.m_params self) - 1))))
  = Some (repeat 0 (Z.to_nat (1 + 5 * steps_ahead (FG_eval.m_params self)))).
Proof.
  intros Hfg.
  set (N := steps_ahead (FG_eval.m_params self)) in *.
  set (vars := repeat 0 (Z.to_nat (5 * N + 2 * (N - 1)))).
  assert (Hvars : Z.of_nat (length vars) = (5 * N + 2 * (N - 1))%Z)
    by (unfold vars; rewrite repeat_length; lia).
  assert (Hat : forall j, (0 <= j < 5 * N + 2 * (N - 1))%Z -> vec_at vars j = 0)
    by (intros j Hj; unfold vars; apply vec_at_repeat; lia).
  assert (Hf : poly (FG_eval.m_coeffs self) 0 = 0)
    by (rewrite <- polyeval_poly, polyeval_at_zero; done).
  assert (Hf' : poly_deriv (FG_eval.m_coeffs self) 0 = 0)
    by (rewrite <- polyeval_diff_poly_deriv, polyeval_diff_at_zero; done).
  destruct (call_computes self vars horizon fits constructed Hvars fg Hfg)
    as (g & -> & Hg & Hc & Hi & Hd).
  f_equal. apply vec_ext; [rewrite repeat_length; lia|]. intros j Hj.
  rewrite vec_at_repeat by lia.
  unfold cost, initial_residuals, dynamics_residuals,
    traj_x, traj_y, traj_psi, traj_cte, traj_epsi, traj_delta, traj_v in *.
  rewrite constructed, layout_exact in * by (lia || done).
  cbn [x_start y_start psi_start cte_start epsi_start delta_start v_start] in *.
  fold N in Hc, Hi, Hd.
  destruct (decide (j = 0%Z)) as [->|Hne].
  - rewrite Hc, !Zsum_zero; [lra|..]; intros t Ht;
      rewrite ?Hat by lia; rewrite ?target_zero; ring.
  - destruct (constraint_index_split N j) as (k & t & Hk & Ht & ->);
      [lia|lia|].
    destruct (decide (t = 0%Z)) as [->|Htne].
    + destruct Hi as (A0 & A1 & A2 & A3 & A4).
      rewrite !Hat in A0, A1, A2, A3, A4 by lia.
      assert (k = 0 \/ k = 1 \/ k = 2 \/ k = 3 \/ k = 4)%Z
        as [-> | [-> | [-> | [-> | ->]]]] by lia.
      * replace (1 + 0 * N + 0)%Z with (1 + 0)%Z by lia. done.
      * replace (1 + 1 * N + 0)%Z with (1 + N)%Z by lia. done.
      * replace (1 + 2 * N + 0)%Z with (1 + 2 * N)%Z by lia. done.
      * replace (1 + 3 * N + 0)%Z with (1 + 3 * N)%Z by lia. done.
      * replace (1 + 4 * N + 0)%Z with (1 + 4 * N)%Z by lia. done.
    + destruct (Hd t) as (A0 & A1 & A2 & A3 & A4); [lia|].
      rewrite !Hat in A0 by lia. rewrite !Hat in A1 by lia.
      rewrite !Hat in A2 by lia. rewrite !Hat in A3 by lia.
      rewrite !Hat in A4 by lia.
      rewrite Hf in A3. rewrite Hf', atan_0 in A4. unfold Rdiv in A2, A4.
      assert (k = 0 \/ k = 1 \/ k = 2 \/ k = 3 \/ k = 4)%Z
        as [-> | [-> | [-> | [-> | ->]]]] by lia.
      * replace (1 + 0 * N + t)%Z with (1 + 0 + t)%Z by lia.
        rewrite A0, !Rmult_0_l. lra.
      * replace (1 + 1 * N + t)%Z with (1 + N + t)%Z by lia.
        rewrite A1, !Rmult_0_l. lra.
      * rewrite A2, !Rmult_0_l. lra.
      * rewrite A3, !Rmult_0_l. lra.
      * rewrite A4, !Rmult_0_l. lra.
Qed.

End ZeroTrajectory.

(** X9.  [operator()] overwrites the whole of [fg]: for two arrays [fg] of
    the right length [1 + 5N], whatever they hold, the call returns the same
    content, of the same length.  The result is a function of [vars] and of
    the captured coefficients, weights and offsets alone. *)
Theorem formulator_overwrites_fg (self : FG_eval.t) (fg fg' vars : list R) :
  2 <= steps_ahead (FG_eval.m_params self) ->
  SizeT.in_range (5 * steps_ahead (FG_eval.m_params self)
                  + 2 * (steps_ahead (FG_eval.m_params self) - 1)) ->
  FG_eval.m_indexes self = MPC.layout (steps_ahead (FG_eval.m_params self)) ->
  Z.of_nat (length vars)
    = 5 * steps_ahead (FG_eval.m_params self)
      + 2 * (steps_ahead (FG_eval.m_params self) - 1) ->
  Z.of_nat (length fg) = 1 + 5 * steps_ahead (FG_eval.m_params self) ->
  length fg' = length fg ->
  exists g,
    FG_eval.call self fg vars = Some g
    /\ FG_eval.call self fg' vars = Some g
    /\ length g = length fg.
Proof.
  intros HN Hfit Hix Hvars Hfg Hfg'.
  destruct (call_computes self vars HN Hfit Hix Hvars fg Hfg)
    as (g & Hrun & Hlen & _).
  exists g. split; [exact Hrun|]. split; [|exact Hlen].
  rewrite <- Hrun. symmetry. by apply call_same_for_any_fg.
Qed.

Lemma formulator_overwrites_fg_witness :
  FG_eval.call (FG_eval.new [1; 2]%R small_params (MPC.layout 3) 1%R)
    (repeat 0%R 16) (repeat 0%R 19)
  = FG_eval.call (FG_eval.new [1; 2]%R small_params (MPC.layout 3) 1%R)
      (repeat 7%R 16) (repeat 0%R 19).
Proof.
  destruct (formulator_overwrites_fg
    (FG_eval.new [1; 2]%R small_params (MPC.layout 3) 1%R)
    (repeat 0%R 16) (repeat 7%R 16) (repeat 0%R 19)) as (g & H1 & H2 & _).
  - simpl. lia.
  - unfold SizeT.in_range. rewrite max_value. simpl. lia.
  - reflexivity.
  - reflexivity.
  - reflexivity.
  - reflexivity.
  - rewrite H1, H2. reflexivity.
Defined.

(** X10.  With weights that are not negative the cost [fg[0]] that
    [operator()] computes is not negative, for every array of decision
    variables and every reference speed. *)
Theorem cost_nonnegative (self : FG_eval.t) (fg vars : list R) :
  2 <= steps_ahead (FG_eval.m_params self) ->
  SizeT.in_range (5 * steps_ahead (FG_eval.m_params self)
                  + 2 * (steps_ahead (FG_eval.m_params self) - 1)) ->
  FG_eval.m_indexes self = MPC.layout (steps_ahead (FG_eval.m_params self)) ->
  Z.of_nat (length vars)
    = 5 * steps_ahead (FG_eval.m_params self)
      + 2 * (steps_ahead (FG_eval.m_params self) - 1) ->
  Z.of_nat (length fg) = 1 + 5 * steps_ahead (FG_eval.m_params self) ->
  (0 <= cte_coeff (FG_eval.m_params self))%R ->
  (0 <= epsi_coeff (FG_eval.m_params self))%R ->
  (0 <= speed_coeff (FG_eval.m_params self))%R ->
  (0 <= steer_coeff (FG_eval.m_params self))%R ->
  (0 <= consec_steer_coeff (FG_eval.m_params self))%R ->
  (0 <= consec_speed_coeff (FG_eval.m_params self))%R ->
  exists g,
    FG_eval.call self fg vars = Some g /\ (0 <= vec_at g 0)%R.
Proof.
  intros HN Hfit Hix Hvars Hfg H1 H2 H3 H4 H5 H6.
  destruct (call_computes self vars HN Hfit Hix Hvars fg Hfg)
    as (g & Hrun & _ & Hcost & _).
  exists g. split; [exact Hrun|]. rewrite Hcost. by apply cost_nonneg.
Qed.

Lemma cost_nonnegative_witness :
  exists g,
    FG_eval.call (FG_eval.new [1; 2]%R small_params (MPC.layout 3) 1%R)
      (repeat 0%R 16) (repeat 0%R 19) = Some g
    /\ (0 <= vec_at g 0)%R.
Proof.
  apply (cost_nonnegative
    (FG_eval.new [1; 2]%R small_params (MPC.layout 3) 1%R)
    (repeat 0%R 16) (repeat 0%R 19)).
  - simpl. lia.
  - unfold SizeT.in_range. rewrite max_value. simpl. lia.
  - reflexivity.
  - reflexivity.
  - reflexivity.
  - simpl. lra.
  - simpl. lra.
  - simpl. lra.
  - simpl. lra.
  - simpl. lra.
  - simpl. lra.
Defined.

(** X11.  Zero fixed point.  When the reference curve passes through the
    origin with zero slope ([coeffs[0] = coeffs[1] = 0], or fewer
    coefficients) and the reference speed is zero, [operator()] maps the zero
    array of decision variables to the zero array: zero cost and every
    residual zero, for every horizon, time step and weights. *)
Theorem zero_trajectory_is_fixed_point (self : FG_eval.t) (fg : list R) :
  2 <= steps_ahead (FG_eval.m_params self) ->
  SizeT.in_range (5 * steps_ahead (FG_eval.m_params self)
                  + 2 * (steps_ahead (FG_eval.m_params self) - 1)) ->
  FG_eval.m_indexes self = MPC.layout (steps_ahead (FG_eval.m_params self)) ->
  FG_eval.m_ref_v self = 0%R ->
  nth 0 (FG_eval.m_coeffs self) 0%R = 0%R ->
  nth 1 (FG_eval.m_coeffs self) 0%R = 0%R ->
  Z.of_nat (length fg) = 1 + 5 * steps_ahead (FG_eval.m_params self) ->
  FG_eval.call self fg
    (repeat 0%R (Z.to_nat (5 * steps_ahead (FG_eval.m_params self)
                           + 2 * (steps_ahead (FG_eval.m_params self) - 1))))
  = Some (repeat 0%R (Z.to_nat (1 + 5 * steps_ahead (FG_eval.m_params self)))).
Proof. intros. by apply call_on_zero. Qed.

Lemma zero_trajectory_is_fixed_point_witness :
  FG_eval.call (FG_eval.new [0; 0; 3]%R small_params (MPC.layout 3) 0%R)
    (repeat 5%R 16) (repeat 0%R 19)
  = Some (repeat 0%R 16).
Proof.
  apply (zero_trajectory_is_fixed_point
           (FG_eval.new [0; 0; 3]%R small_params (MPC.layout 3) 0%R)
           (repeat 5%R 16)).
  - simpl. lia.
  - unfold SizeT.in_range. rewrite max_value. simpl. lia.
  - reflexivity.
  - reflexivity.
  - reflexivity.
  - reflexivity.
  - reflexivity.
Defined.

(** ** The solver driver and the formulator together *)

Lemma Solve_setup_state_length SPEED_UPPERBOUND uninit m (state : list R) args :
  MPC.Solve_setup SPEED_UPPERBOUND uninit m state = Some args ->
  (5 <= length state)%nat.
Proof.
  unfold MPC.Solve_setup. intros H.
  destruct (vec_get state 0) as [x0|]; [|done].
  destruct (vec_get state 1) as [x1|]; [|done].
  destruct (vec_get state 2) as [x2|]; [|done].
  destruct (vec_get state 3) as [x3|]; [|done].
  destruct (vec_get state 4) as [x4|] eqn:H4; [|done].
  apply vec_get_inv in H4 as [H4 _]. lia.
Qed.

Section Closed.

Variable SPEED_UPPERBOUND : R.
Variable uninit : R.
Variable m : MPC.t.

Hypothesis horizon : 2 <= steps_ahead (MPC.m_params m).
Hypothesis fits :
  SizeT.in_range (5 * steps_ahead (MPC.m_params m)
                  + 2 * (steps_ahead (MPC.m_params m) - 1)).
Hypothesis constructed :
  MPC.m_indexes m = MPC.layout (steps_ahead (MPC.m_params m)).

(** The bounds of the first steering and of the first speed. *)
Lemma first_actuation_bounds (state : list R) args :
  MPC.Solve_setup SPEED_UPPERBOUND uninit m state = Some args ->
  (vec_at (xl args) (delta_start (MPC.m_indexes m)) = - max_steering_angle
   /\ vec_at (xu args) (delta_start (MPC.m_indexes m)) = max_steering_angle
   /\ vec_at (xl args) (v_start (MPC.m_indexes m)) = 0
   /\ vec_at (xu args) (v_start (MPC.m_indexes m)) = SPEED_UPPERBOUND)%R
  /\ 0 <= delta_start (MPC.m_indexes m) < MPC.n_vars m
  /\ 0 <= v_start (MPC.m_indexes m) < MPC.n_vars m.
Proof.
  intros Hsetup.
  pose proof (Solve_setup_state_length _ _ _ _ _ Hsetup) as Hstate.
  assert (H1 : 1 <= steps_ahead (MPC.m_params m)) by lia.
  destruct (Solve_setup_builds SPEED_UPPERBOUND uninit m H1 fits constructed
              state Hstate) as (vars & lo & up & glo & gup & Heq & _ & Hvb & _).
  rewrite Hsetup in Heq. injection Heq as ->. cbn [xl xu].
  destruct (variable_bounds_regions SPEED_UPPERBOUND uninit m H1 fits
              constructed) as (lo' & up' & Hvb' & _ & _ & _ & Hsteer & Hspeed).
  rewrite Hvb in Hvb'. injection Hvb' as <- <-.
  destruct (n_vars_exact m H1 fits) as [-> _].
  rewrite constructed, layout_exact by done.
  cbn [x_start y_start psi_start cte_start epsi_start delta_start v_start].
  destruct (Hsteer (5 * steps_ahead (MPC.m_params m))) as [-> ->]; [lia|].
  destruct (Hspeed (6 * steps_ahead (MPC.m_params m) - 1)) as [-> ->]; [lia|].
  repeat split; lia.
Qed.

(** Zero lies within the bounds of every variable when the maximal speed is
    not negative. *)
Lemma bounds_contain_zero (state : list R) args :
  (0 <= SPEED_UPPERBOUND)%R ->
  MPC.Solve_setup SPEED_UPPERBOUND uninit m state = Some args ->
  forall i, 0 <= i < MPC.n_vars m ->
    (vec_at (xl args) i <= 0 <= vec_at (xu args) i)%R.
Proof.
  intros Hspeed0 Hsetup.
  pose proof (Solve_setup_state_length _ _ _ _ _ Hsetup) as Hstate.
  assert (H1 : 1 <= steps_ahead (MPC.m_params m)) by lia.
  destruct (Solve_setup_builds SPEED_UPPERBOUND uninit m H1 fits constructed
              state Hstate) as (vars & lo & up & glo & gup & Heq & _ & Hvb & _).
  rewrite Hsetup in Heq. injection Heq as ->. cbn [xl xu].
  destruct (variable_bounds_regions SPEED_UPPERBOUND uninit m H1 fits
              constructed) as (lo' & up' & Hvb' & _ & _ & Hst & Hsteer & Hspeed).
  rewrite Hvb in Hvb'. injection Hvb' as <- <-.
  destruct (n_vars_exact m H1 fits) as [-> _]. intros i Hi.
  destruct (Z_lt_ge_dec i (5 * steps_ahead (MPC.m_params m)));
    [|destruct (Z_lt_ge_dec i (6 * steps_ahead (MPC.m_params m) - 1))].
  - destruct (Hst i) as [-> ->]; [lia|]. lra.
  - destruct (Hsteer i) as [-> ->]; [lia|].
    unfold max_steering_angle, delta_constraint. lra.
  - destruct (Hspeed i) as [-> ->]; [lia|]. lra.
Qed.

(** What the constraints say of an iterate that satisfies them: it starts
    at the state, and its second position is one step of the vehicle model
    away. *)
Lemma feasible_iterate (state coeffs xs : list R) (new_ref_v : R) args :
  MPC.Solve_setup SPEED_UPPERBOUND uninit m state = Some args ->
  Z.of_nat (length xs) = MPC.n_vars m ->
  satisfies_constraints
    (FG_eval.call
       (FG_eval.new coeffs (MPC.m_params m) (MPC.m_indexes m) new_ref_v))
    args xs ->
  (vec_at xs 0 = vec_at state 0
   /\ vec_at xs (steps_ahead (MPC.m_params m)) = vec_at state 1
   /\ vec_at xs (2 * steps_ahead (MPC.m_params m)) = vec_at state 2
   /\ vec_at xs 1
      = vec_at xs 0
        + vec_at xs (6 * steps_ahead (MPC.m_params m) - 1)
          * cos (vec_at xs (2 * steps_ahead (MPC.m_params m)))
          * dt (MPC.m_params m)
   /\ vec_at xs (steps_ahead (MPC.m_params m) + 1)
      = vec_at xs (steps_ahead (MPC.m_params m))
        + vec_at xs (6 * steps_ahead (MPC.m_params m) - 1)
          * sin (vec_at xs (2 * steps_ahead (MPC.m_params m)))
          * dt (MPC.m_params m))%R.
Proof.
  intros Hsetup Hxs (g & Hcall & Hbounds).
  pose proof (Solve_setup_state_length _ _ _ _ _ Hsetup) as Hstate.
  assert (H1 : 1 <= steps_ahead (MPC.m_params m)) by lia.
  destruct (Solve_setup_builds SPEED_UPPERBOUND uninit m H1 fits constructed
              state Hstate) as (vars & lo & up & glo & gup & Heq & _ & _ & Hcb).
  rewrite Hsetup in Heq. injection Heq as ->. cbn [gl gu] in *.
  destruct (constraint_bounds_pinned uninit m H1 fits constructed
              (vec_at state 0) (vec_at state 1) (vec_at state 2)
              (vec_at state 3) (vec_at state 4))
    as (glo' & gup' & Hcb' & Hlg & _ & Hx & Hy & Hpsi & _ & _ & Hzero).
  rewrite Hcb in Hcb'. injection Hcb' as <- <-.
  destruct (n_vars_exact m H1 fits) as [Hnv _]. rewrite Hnv in Hxs.
  set (N := steps_ahead (MPC.m_params m)) in *.
  destruct (call_computes
              (FG_eval.new coeffs (MPC.m_params m) (MPC.m_indexes m) new_ref_v)
              xs horizon fits constructed Hxs
              (repeat 0%R (S (length glo))))
    as (g' & Hcall' & _ & _ & Hinit & Hdyn).
  { rewrite repeat_length. cbn [FG_eval.new FG_eval.m_params]. lia. }
  rewrite Hcall in Hcall'. injection Hcall' as <-.
  specialize (Hdyn 1 ltac:(cbn [FG_eval.new FG_eval.m_params]; lia)).
  unfold initial_residuals, dynamics_residuals,
    traj_x, traj_y, traj_psi, traj_v in Hinit, Hdyn.
  cbn [FG_eval.new FG_eval.m_params FG_eval.m_indexes] in Hinit, Hdyn.
  rewrite constructed, layout_exact in Hinit, Hdyn, Hx, Hy, Hpsi, Hzero
    by done.
  cbn [x_start y_start psi_start cte_start epsi_start delta_start v_start]
    in Hinit, Hdyn, Hx, Hy, Hpsi, Hzero.
  fold N in Hinit, Hdyn, Hx, Hy, Hpsi, Hzero.
  destruct Hinit as (I0 & I1 & I2 & _).
  destruct Hdyn as (D0 & D1 & _).
  rewrite !Z.add_0_r in I0, I1, I2.
  replace (1 - 1) with 0 in D0, D1 by lia.
  rewrite !Z.add_0_r in D0, D1. rewrite !Z.add_0_l in D0.
  pose proof (Hbounds 0 ltac:(lia)) as B0.
  pose proof (Hbounds N ltac:(lia)) as B1.
  pose proof (Hbounds (2 * N) ltac:(lia)) as B2.
  pose proof (Hbounds 1 ltac:(lia)) as B3.
  pose proof (Hbounds (N + 1) ltac:(lia)) as B4.
  destruct Hx as [Hx1 Hx2]. destruct Hy as [Hy1 Hy2].
  destruct Hpsi as [Hp1 Hp2].
  destruct (Hzero 1) as [Hz1 Hz1']; [lia..|].
  destruct (Hzero (N + 1)) as [Hz2 Hz2']; [lia..|].
  rewrite Z.add_0_r in B0.
  rewrite Hx1, Hx2, I0 in B0. rewrite Hy1, Hy2, I1 in B1.
  rewrite Hp1, Hp2, I2 in B2.
  rewrite Hz1, Hz1', D0 in B3.
  replace (1 + (N + 1)) with (1 + N + 1) in B4 by lia.
  rewrite Hz2, Hz2', D1 in B4.
  change (0 + 0) with 0 in B0.
  replace (2 * N + 0) with (2 * N) in B3 by lia.
  repeat split; lra.
Qed.

End Closed.

(** X12.  Bound respect.  When the iterate that the solver hands back
    respects the bounds of the variables it was given, the first two entries
    that [Solve] returns respect the limits of the actuators: the steering
    lies within [-max_steering_angle, +max_steering_angle] and the speed
    within [0, SPEED_UPPERBOUND]. *)
Theorem returned_actuation_within_limits (SPEED_UPPERBOUND uninit : R)
    (ipopt_solve : solve_args -> (list R -> list R -> option (list R))
                   -> solve_result)
    (p : Params) (m : MPC.t) (state coeffs : list R) (new_ref_v : R)
    (out : MPC.outcome) :
  2 <= steps_ahead p ->
  SizeT.in_range (5 * steps_ahead p + 2 * (steps_ahead p - 1)) ->
  MPC.new SPEED_UPPERBOUND p = Some m ->
  MPC.Solve SPEED_UPPERBOUND ipopt_solve uninit m state coeffs new_ref_v
  = Some out ->
  (forall args,
     MPC.Solve_setup SPEED_UPPERBOUND uninit m state = Some args ->
     forall i, 0 <= i < MPC.n_vars m ->
       (vec_at (xl args) i
        <= vec_at (x (solver_answer ipopt_solve m args coeffs new_ref_v)) i
        <= vec_at (xu args) i)%R) ->
  exists delta0 v0,
    MPC.returned out !! 0%nat = Some delta0
    /\ MPC.returned out !! 1%nat = Some v0
    /\ (- max_steering_angle <= delta0 <= max_steering_angle)%R
    /\ (0 <= v0 <= SPEED_UPPERBOUND)%R.
Proof.
  intros HN Hfit Hnew Hrun Hresp. apply new_Some in Hnew as [-> _].
  set (m := {| MPC.m_params := p; MPC.m_indexes := MPC.layout (steps_ahead p) |})
    in *.
  apply Solve_inv in Hrun as (args & Hsetup & _ & Hret).
  destruct (first_actuation_bounds SPEED_UPPERBOUND uninit m HN Hfit eq_refl
              state args Hsetup)
    as ((Hdl & Hdu & Hvl & Hvu) & Hdr & Hvr).
  pose proof (Hresp args Hsetup _ Hdr) as Bd.
  pose proof (Hresp args Hsetup _ Hvr) as Bv.
  rewrite Hdl, Hdu in Bd. rewrite Hvl, Hvu in Bv.
  eexists _, _. rewrite Hret. split; [reflexivity|]. split; [reflexivity|].
  split; [exact Bd|exact Bv].
Qed.

Lemma returned_actuation_within_limits_witness :
  exists out delta0,
    MPC.Solve 2 (fun _ _ => answer_converged) 0 small_mpc
      [0; 0; 0; 1; 0.1]%R [1; 2]%R 1 = Some out
    /\ MPC.returned out !! 0%nat = Some delta0
    /\ (- max_steering_angle <= delta0 <= max_steering_angle)%R.
Proof.
  assert (H2 : 2 <= steps_ahead small_params) by (simpl; lia).
  assert (Hfit : SizeT.in_range (5 * steps_ahead small_params
                                 + 2 * (steps_ahead small_params - 1)))
    by (unfold SizeT.in_range; rewrite max_value; simpl; lia).
  assert (Hnew : MPC.new 2 small_params = Some small_mpc)
    by (apply (new_accepts 2 small_params); simpl; lra).
  assert (Hst : (5 <= length [0; 0; 0; 1; 0.1]%R)%nat) by (simpl; lia).
  destruct (Solve_returns 2 (fun _ _ => answer_converged) 0 small_mpc
              [0; 0; 0; 1; 0.1]%R [1; 2]%R 1 H2 Hfit eq_refl Hst)
    as [out Hout]; [intros; reflexivity|].
  destruct (returned_actuation_within_limits 2 0 (fun _ _ => answer_converged)
              small_params small_mpc [0; 0; 0; 1; 0.1]%R [1; 2]%R 1 out
              H2 Hfit Hnew Hout) as (delta0 & v0 & Hd & _ & Hdb & _).
  - intros args Hsetup i Hi. unfold solver_answer, answer_converged. cbn [x].
    rewrite vec_at_repeat by (change (MPC.n_vars small_mpc) with 19 in Hi; lia).
    apply (bounds_contain_zero 2 0 small_mpc H2 Hfit eq_refl
             [0; 0; 0; 1; 0.1]%R args); [lra|exact Hsetup|exact Hi].
  - exists out, delta0. split; [exact Hout|]. split; [exact Hd|exact Hdb].
Defined.

(** X13.  When the iterate that the solver hands back satisfies the
    constraints it was given, the trajectory that [Solve] returns starts at
    the state, [(state[0], state[1])], and its second point is one step of
    the vehicle model from there, taken with the returned speed [v0] and the
    heading [state[2]]:
    [(state[0] + v0 * cos(state[2]) * dt, state[1] + v0 * sin(state[2]) * dt)]. *)
Theorem prediction_starts_at_state (SPEED_UPPERBOUND uninit : R)
    (ipopt_solve : solve_args -> (list R -> list R -> option (list R))
                   -> solve_result)
    (p : Params) (m : MPC.t) (state coeffs : list R) (new_ref_v : R)
    (args : solve_args) (out : MPC.outcome) :
  2 <= steps_ahead p ->
  SizeT.in_range (5 * steps_ahead p + 2 * (steps_ahead p - 1)) ->
  MPC.new SPEED_UPPERBOUND p = Some m ->
  MPC.Solve_setup SPEED_UPPERBOUND uninit m state = Some args ->
  MPC.Solve SPEED_UPPERBOUND ipopt_solve uninit m state coeffs new_ref_v
  = Some out ->
  Z.of_nat (length (x (solver_answer ipopt_solve m args coeffs new_ref_v)))
  = MPC.n_vars m ->
  satisfies_constraints
    (FG_eval.call
       (FG_eval.new coeffs (MPC.m_params m) (MPC.m_indexes m) new_ref_v))
    args (x (solver_answer ipopt_solve m args coeffs new_ref_v)) ->
  MPC.returned out !! 2%nat = Some (vec_at state 0)
  /\ MPC.returned out !! 3%nat = Some (vec_at state 1)
  /\ exists v0,
       MPC.returned out !! 1%nat = Some v0
       /\ MPC.returned out !! 4%nat
          = Some (vec_at state 0 + v0 * cos (vec_at state 2) * dt p)%R
       /\ MPC.returned out !! 5%nat
          = Some (vec_at state 1 + v0 * sin (vec_at state 2) * dt p)%R.
Proof.
  intros HN Hfit Hnew Hsetup Hrun Hlen Hfeas. apply new_Some in Hnew as [-> _].
  set (m := {| MPC.m_params := p; MPC.m_indexes := MPC.layout (steps_ahead p) |})
    in *.
  apply Solve_inv in Hrun as (args' & Hsetup' & _ & Hret).
  rewrite Hsetup in Hsetup'. injection Hsetup' as <-.
  set (xs := x (solver_answer ipopt_solve m args coeffs new_ref_v)) in *.
  destruct (feasible_iterate SPEED_UPPERBOUND uninit m HN Hfit eq_refl
              state coeffs xs new_ref_v args Hsetup Hlen Hfeas)
    as (F0 & F1 & F2 & F3 & F4).
  change (steps_ahead (MPC.m_params m)) with (steps_ahead p) in *.
  change (dt (MPC.m_params m)) with (dt p) in *.
  destruct (predicted_pairs_lookup m xs 0) as [P0 P1];
    [change (steps_ahead (MPC.m_params m)) with (steps_ahead p); lia|].
  destruct (predicted_pairs_lookup m xs 1) as [P2 P3];
    [change (steps_ahead (MPC.m_params m)) with (steps_ahead p); lia|].
  change (MPC.m_indexes m) with (MPC.layout (steps_ahead p)) in *.
  change (steps_ahead (MPC.m_params m)) with (steps_ahead p) in *.
  rewrite layout_exact in * by (lia || done).
  cbn [x_start y_start psi_start cte_start epsi_start delta_start v_start] in *.
  pose proof Hfit as [_ Hmax]. rewrite max_value in Hmax.
  unwrap.
  change (Z.to_nat (2 * 0)) with 0%nat in P0.
  change (Z.to_nat (2 * 0 + 1)) with 1%nat in P1.
  change (Z.to_nat (2 * 1)) with 2%nat in P2.
  change (Z.to_nat (2 * 1 + 1)) with 3%nat in P3.
  rewrite Z.add_0_r in P1. rewrite Z.add_0_l in P2.
  change (0 + 0) with 0 in P0.
  rewrite Hret.
  set (pairs := predicted_pairs _ xs (steps_ahead p)) in *.
  split; [|split].
  - change (pairs !! 0%nat = Some (vec_at state 0)). rewrite P0. congruence.
  - change (pairs !! 1%nat = Some (vec_at state 1)). rewrite P1. congruence.
  - eexists. split; [reflexivity|]. split.
    + change (pairs !! 2%nat
              = Some (vec_at state 0
                      + vec_at xs (6 * steps_ahead p - 1)
                        * cos (vec_at state 2) * dt p)%R).
      rewrite P2. f_equal. congruence.
    + change (pairs !! 3%nat
              = Some (vec_at state 1
                      + vec_at xs (6 * steps_ahead p - 1)
                        * sin (vec_at state 2) * dt p)%R).
      rewrite P3. f_equal. congruence.
Qed.

Section ZeroState.

Variable SPEED_UPPERBOUND : R.
Variable uninit : R.
Variable m : MPC.t.

Hypothesis horizon : 2 <= steps_ahead (MPC.m_params m).
Hypothesis fits :
  SizeT.in_range (5 * steps_ahead (MPC.m_params m)
                  + 2 * (steps_ahead (MPC.m_params m) - 1)).
Hypothesis constructed :
  MPC.m_indexes m = MPC.layout (steps_ahead (MPC.m_params m)).

(** For the zero state on a flat reference through the origin, with zero
    reference speed, the zero iterate satisfies every constraint. *)
Lemma zero_iterate_feasible (state coeffs : list R) args :
  (forall k, 0 <= k < 5 -> vec_at state k = 0%R) ->
  nth 0 coeffs 0%R = 0%R -> nth 1 coeffs 0%R = 0%R ->
  MPC.Solve_setup SPEED_UPPERBOUND uninit m state = Some args ->
  satisfies_constraints
    (FG_eval.call
       (FG_eval.new coeffs (MPC.m_params m) (MPC.m_indexes m) 0%R))
    args
    (repeat 0%R (Z.to_nat (5 * steps_ahead (MPC.m_params m)
                           + 2 * (steps_ahead (MPC.m_params m) - 1)))).
Proof.
  intros Hzero Hc0 Hc1 Hsetup.
  pose proof (Solve_setup_state_length _ _ _ _ _ Hsetup) as Hstate.
  assert (H1 : 1 <= steps_ahead (MPC.m_params m)) by lia.
  destruct (Solve_setup_builds SPEED_UPPERBOUND uninit m H1 fits constructed
              state Hstate) as (vars & lo & up & glo & gup & Heq & _ & _ & Hcb).
  rewrite Hsetup in Heq. injection Heq as ->.
  destruct (constraint_bounds_pinned uninit m H1 fits constructed
              (vec_at state 0) (vec_at state 1) (vec_at state 2)
              (vec_at state 3) (vec_at state 4))
    as (glo' & gup' & Hcb' & Hlg & _ & Hx & Hy & Hpsi & Hcte & Hepsi & Hrest).
  rewrite Hcb in Hcb'. injection Hcb' as <- <-.
  rewrite !Hzero in Hx, Hy, Hpsi, Hcte, Hepsi by lia.
  unfold satisfies_constraints. cbn [gl gu].
  exists (repeat 0%R (Z.to_nat (1 + 5 * steps_ahead (MPC.m_params m)))).
  split.
  - apply (call_on_zero
             (FG_eval.new coeffs (MPC.m_params m) (MPC.m_indexes m) 0%R));
      try done.
    rewrite repeat_length. cbn [FG_eval.new FG_eval.m_params]. lia.
  - intros j Hj. rewrite vec_at_repeat by lia.
    assert (vec_at glo j = 0%R /\ vec_at gup j = 0%R) as [-> ->]; [|lra].
    destruct (decide (j = x_start (MPC.m_indexes m))) as [->|]; [done|].
    destruct (decide (j = y_start (MPC.m_indexes m))) as [->|]; [done|].
    destruct (decide (j = psi_start (MPC.m_indexes m))) as [->|]; [done|].
    destruct (decide (j = cte_start (MPC.m_indexes m))) as [->|]; [done|].
    destruct (decide (j = epsi_start (MPC.m_indexes m))) as [->|]; [done|].
    apply Hrest; (done || lia).
Qed.

End ZeroState.

Lemma prediction_starts_at_state_witness :
  exists out,
    MPC.Solve 2 (fun _ _ => answer_converged) 0 small_mpc
      [0; 0; 0; 0; 0]%R [0; 0]%R 0 = Some out
    /\ MPC.returned out !! 2%nat = Some (vec_at [0; 0; 0; 0; 0]%R 0).
Proof.
  assert (H2 : 2 <= steps_ahead small_params) by (simpl; lia).
  assert (Hfit : SizeT.in_range (5 * steps_ahead small_params
                                 + 2 * (steps_ahead small_params - 1)))
    by (unfold SizeT.in_range; rewrite max_value; simpl; lia).
  assert (Hnew : MPC.new 2 small_params = Some small_mpc)
    by (apply (new_accepts 2 small_params); simpl; lra).
  assert (Hst : (5 <= length [0; 0; 0; 0; 0]%R)%nat) by (simpl; lia).
  destruct (Solve_returns 2 (fun _ _ => answer_converged) 0 small_mpc
              [0; 0; 0; 0; 0]%R [0; 0]%R 0 H2 Hfit eq_refl Hst)
    as [out Hout]; [intros; reflexivity|].
  destruct (Solve_inv _ _ _ _ _ _ _ _ Hout) as (args & Hsetup & _).
  assert (Hfeas : satisfies_constraints
            (FG_eval.call
               (FG_eval.new [0; 0]%R (MPC.m_params small_mpc)
                  (MPC.m_indexes small_mpc) 0%R))
            args
            (x (solver_answer (fun _ _ => answer_converged) small_mpc args
                  [0; 0]%R 0%R))).
  { apply (zero_iterate_feasible 2 0 small_mpc H2 Hfit eq_refl
             [0; 0; 0; 0; 0]%R [0; 0]%R args); try reflexivity; [|exact Hsetup].
    intros k Hk.
    assert (k = 0 \/ k = 1 \/ k = 2 \/ k = 3 \/ k = 4)
      as [-> | [-> | [-> | [-> | ->]]]] by lia; reflexivity. }
  exists out. split; [exact Hout|].
  exact (proj1 (prediction_starts_at_state 2 0 (fun _ _ => answer_converged)
                  small_params small_mpc [0; 0; 0; 0; 0]%R [0; 0]%R 0 args out
                  H2 Hfit Hnew Hsetup Hout eq_refl Hfeas)).
Defined.

(** ** The minimum of the cost *)

Lemma Rsum_nonneg_zero f lo n :
  (forall k, (lo <= k < lo + n)%nat -> (0 <= f k)%R) ->
  Rsum f lo n = 0%R ->
  forall k, (lo <= k < lo + n)%nat -> f k = 0%R.
Proof.
  revert lo. induction n as [|n IH]; intros lo Hpos Hsum k Hk; [lia|].
  simpl in Hsum.
  pose proof (Hpos lo ltac:(lia)) as H0.
  pose proof (Rsum_nonneg f (S lo) n ltac:(intros; apply Hpos; lia)) as H1.
  destruct (decide (k = lo)) as [->|Hne]; [lra|].
  apply (IH (S lo)); [intros; apply Hpos; lia|lra|lia].
Qed.

Lemma Zsum_nonneg_zero f n :
  (forall t, 0 <= t < n -> (0 <= f t)%R) ->
  Zsum f n = 0%R ->
  forall t, 0 <= t < n -> f t = 0%R.
Proof.
  intros Hpos Hsum t Ht. unfold Zsum in Hsum.
  pose proof (Rsum_nonneg_zero (fun k => f (Z.of_nat k)) 0 (Z.to_nat n)) as H.
  cbv beta in H. rewrite <- (Z2Nat.id t) by lia. apply H; [|done|lia].
  intros k Hk. apply Hpos. lia.
Qed.

Section CostMinimum.

Local Open Scope R_scope.

Variable self : FG_eval.t.
Variable vars : list R.

Hypothesis cte_weight : 0 < cte_coeff (FG_eval.m_params self).
Hypothesis epsi_weight : 0 < epsi_coeff (FG_eval.m_params self).
Hypothesis speed_weight : 0 < speed_coeff (FG_eval.m_params self).
Hypothesis steer_weight : 0 < steer_coeff (FG_eval.m_params self).
Hypothesis consec_steer_weight :
  0 <= consec_steer_coeff (FG_eval.m_params self).
Hypothesis consec_speed_weight :
  0 <= consec_speed_coeff (FG_eval.m_params self).

Lemma weighted_squares_zero (a b u v : R) :
  0 < a -> 0 < b -> a * u ^ 2 + b * v ^ 2 = 0 -> u = 0 /\ v = 0.
Proof.
  intros Ha Hb H. pose proof (pow2_ge_0 u). pose proof (pow2_ge_0 v).
  assert (u ^ 2 = 0) by nra. assert (v ^ 2 = 0) by nra.
  split; nra.
Qed.

Lemma cost_zero_iff :
  cost self vars = 0
  <-> (forall t, (0 <= t < steps_ahead (FG_eval.m_params self))%Z ->
         traj_cte (FG_eval.m_indexes self) vars t = 0
         /\ traj_epsi (FG_eval.m_indexes self) vars t = 0)
      /\ (forall t, (0 <= t < steps_ahead (FG_eval.m_params self) - 1)%Z ->
            traj_v (FG_eval.m_indexes self) vars t = FG_eval.m_ref_v self
            /\ traj_delta (FG_eval.m_indexes self) vars t = 0).
Proof.
  unfold cost.
  set (A := Zsum _ (steps_ahead (FG_eval.m_params self))).
  set (B := Zsum _ (steps_ahead (FG_eval.m_params self) - 1)).
  set (C := Zsum _ (steps_ahead (FG_eval.m_params self) - 2)).
  assert (Hsq : forall a b c d : R, 0 <= a -> 0 <= c -> 0 <= a * b ^ 2 + c * d ^ 2).
  { intros a b c d Ha Hc. pose proof (pow2_ge_0 b). pose proof (pow2_ge_0 d).
    nra. }
  assert (HA : 0 <= A) by (apply Zsum_nonneg; intros; apply Hsq; lra).
  assert (HB : 0 <= B) by (apply Zsum_nonneg; intros; apply Hsq; lra).
  assert (HC : 0 <= C) by (apply Zsum_nonneg; intros; apply Hsq; lra).
  split.
  - intros Hzero.
    assert (A = 0) as HA0 by lra. assert (B = 0) as HB0 by lra.
    split.
    + assert (Hterm : forall t,
                (0 <= t < steps_ahead (FG_eval.m_params self))%Z ->
                cte_coeff (FG_eval.m_params self)
                  * traj_cte (FG_eval.m_indexes self) vars t ^ 2
                + epsi_coeff (FG_eval.m_params self)
                  * traj_epsi (FG_eval.m_indexes self) vars t ^ 2 = 0).
      { apply Zsum_nonneg_zero; [intros; apply Hsq; lra|exact HA0]. }
      intros t Ht.
      apply (weighted_squares_zero (cte_coeff (FG_eval.m_params self))
               (epsi_coeff (FG_eval.m_params self))); [done|done|].
      by apply Hterm.
    + assert (Hterm : forall t,
                (0 <= t < steps_ahead (FG_eval.m_params self) - 1)%Z ->
                speed_coeff (FG_eval.m_params self)
                  * (traj_v (FG_eval.m_indexes self) vars t
                     - FG_eval.m_ref_v self) ^ 2
                + steer_coeff (FG_eval.m_params self)
                  * traj_delta (FG_eval.m_indexes self) vars t ^ 2 = 0).
      { apply Zsum_nonneg_zero; [intros; apply Hsq; lra|exact HB0]. }
      intros t Ht. specialize (Hterm t Ht).
      apply weighted_squares_zero in Hterm as [H1 H2]; [|done|done].
      split; [lra|done].
  - intros [Htrack Hact].
    assert (A = 0) as ->.
    { apply Zsum_zero. intros t Ht. destruct (Htrack t Ht) as [-> ->]. ring. }
    assert (B = 0) as ->.
    { apply Zsum_zero. intros t Ht. destruct (Hact t Ht) as [-> ->]. ring. }
    assert (C = 0) as ->; [|lra].
    apply Zsum_zero. intros t Ht.
    destruct (Hact t ltac:(lia)) as [-> ->].
    destruct (Hact (t + 1)%Z ltac:(lia)) as [-> ->]. ring.
Qed.

End CostMinimum.

(** X14.  With positive weights on the two tracking errors, on the speed
    error and on the steering, and non-negative weights on the gaps, the cost
    that [operator()] computes is zero exactly when every cross-track and
    heading error of the trajectory is zero, every speed equals the
    reference speed and every steering is zero. *)
Theorem cost_zero_iff_perfect_tracking (self : FG_eval.t) (fg vars : list R) :
  2 <= steps_ahead (FG_eval.m_params self) ->
  SizeT.in_range (5 * steps_ahead (FG_eval.m_params self)
                  + 2 * (steps_ahead (FG_eval.m_params self) - 1)) ->
  FG_eval.m_indexes self = MPC.layout (steps_ahead (FG_eval.m_params self)) ->
  Z.of_nat (length vars)
    = 5 * steps_ahead (FG_eval.m_params self)
      + 2 * (steps_ahead (FG_eval.m_params self) - 1) ->
  Z.of_nat (length fg) = 1 + 5 * steps_ahead (FG_eval.m_params self) ->
  (0 < cte_coeff (FG_eval.m_params self))%R ->
  (0 < epsi_coeff (FG_eval.m_params self))%R ->
  (0 < speed_coeff (FG_eval.m_params self))%R ->
  (0 < steer_coeff (FG_eval.m_params self))%R ->
  (0 <= consec_steer_coeff (FG_eval.m_params self))%R ->
  (0 <= consec_speed_coeff (FG_eval.m_params self))%R ->
  exists g,
    FG_eval.call self fg vars = Some g
    /\ (vec_at g 0 = 0%R
        <-> (forall t, 0 <= t < steps_ahead (FG_eval.m_params self) ->
               traj_cte (FG_eval.m_indexes self) vars t = 0%R
               /\ traj_epsi (FG_eval.m_indexes self) vars t = 0%R)
            /\ (forall t, 0 <= t < steps_ahead (FG_eval.m_params self) - 1 ->
                  traj_v (FG_eval.m_indexes self) vars t = FG_eval.m_ref_v self
                  /\ traj_delta (FG_eval.m_indexes self) vars t = 0%R)).
Proof.
  intros HN Hfit Hix Hvars Hfg H1 H2 H3 H4 H5 H6.
  destruct (call_computes self vars HN Hfit Hix Hvars fg Hfg)
    as (g & Hrun & _ & Hcost & _).
  exists g. split; [exact Hrun|]. rewrite Hcost. by apply cost_zero_iff.
Qed.

Lemma cost_zero_iff_perfect_tracking_witness :
  exists g,
    FG_eval.call (FG_eval.new [1; 2]%R small_params (MPC.layout 3) 0%R)
      (repeat 0%R 16) (repeat 0%R 19) = Some g
    /\ vec_at g 0 = 0%R.
Proof.
  destruct (cost_zero_iff_perfect_tracking
    (FG_eval.new [1; 2]%R small_params (MPC.layout 3) 0%R)
    (repeat 0%R 16) (repeat 0%R 19)) as (g & Hrun & Hiff).
  - simpl. lia.
  - unfold SizeT.in_range. rewrite max_value. simpl. lia.
  - reflexivity.
  - reflexivity.
  - reflexivity.
  - simpl. lra.
  - simpl. lra.
  - simpl. lra.
  - simpl. lra.
  - simpl. lra.
  - simpl. lra.
  - exists g. split; [exact Hrun|]. apply Hiff.
    split; intros t Ht; cbn [FG_eval.new FG_eval.m_indexes FG_eval.m_ref_v];
      unfold traj_cte, traj_epsi, traj_v, traj_delta;
      rewrite !vec_at_repeat; try done;
      cbn [FG_eval.new FG_eval.m_params small_params steps_ahead] in Ht;
      change (MPC.layout 3) with
        {| x_start := 0; y_start := 3; psi_start := 6; cte_start := 9;
           epsi_start := 12; delta_start := 15; v_start := 17 |};
      cbn [cte_start epsi_start v_start delta_start]; lia.
Defined.
